(** * pyfim: the floating-point support test script and the package build

    A shallow embedding of the two Python files of the repository:

    - [pyfim/ex/fltsupp.py], which builds a weighted transaction database
      as a dict literal and hands it to one of the mining functions of the
      extension module [fim];
    - [setup.py], which writes [MANIFEST.in] and [README], calls
      [distutils]' [setup] and removes the two files again.

    The extension module [fim] is compiled from C sources that [setup.py]
    lists; the mining engine is embedded from its specification (section
    [Mining engine] below).

    Numbers: a Python [int] is a [Z].  A weight such as [0.5] is a Python
    float, a binary64 number.  The engine is reasoned about with every
    weight the rational number its decimal literal denotes ([Q], compared
    with [==]), that is with exact sums, and it is run on binary64 numbers
    ([float], module [Engine]) where a statement depends on the rounding
    of the sums.  A tuple of ints is a [list Z].  A dict handed to a mining
    function is the list of its entries, each a transaction with its
    weight.

    Part I holds the embedding, Part II the lemmas and the theorems. *)

From Stdlib Require Import String Ascii ZArith QArith List Bool Lia Lqa.
From Stdlib Require Import Floats Uint63.
From stdpp Require gmap strings.
Import ListNotations.

(** Binary64 numbers are written by a decimal that reads back as the
    number. *)
Set Warnings "-inexact-float".
Open Scope Q_scope.

(* ===================================================================== *)
(** * Part I: the embedding                                              *)
(* ===================================================================== *)

(* ===================================================================== *)
(** * Python dicts                                                       *)
(* ===================================================================== *)

(** A Python dict keeps its keys in insertion order; storing under a key
    that is already present replaces the value and leaves the key where it
    is.  A dict display [{k1: v1, k2: v2, ...}] stores its entries from
    left to right. *)

Section PyDict.
Context {K V : Type}.
Variable keq : K -> K -> bool.

Definition dict : Type := list (K * V).

Fixpoint dict_set (k : K) (v : V) (d : dict) : dict :=
  match d with
  | [] => [(k, v)]
  | (k', v') :: d' =>
      if keq k k' then (k', v) :: d' else (k', v') :: dict_set k v d'
  end.

Fixpoint dict_get (k : K) (d : dict) : option V :=
  match d with
  | [] => None
  | (k', v') :: d' => if keq k k' then Some v' else dict_get k d'
  end.

Definition dict_display (entries : list (K * V)) : dict :=
  fold_left (fun d e => dict_set (fst e) (snd e) d) entries [].

Definition dict_keys (d : dict) : list K := map fst d.

(** The entries of a list stored under key [k], in order. *)
Definition entries_of (k : K) (d : list (K * V)) : list V :=
  map snd (filter (fun e => keq k (fst e)) d).

(** The keys of a sequence of entries, each once, in the order of their
    first occurrence: the order in which a [for] loop over the dict of a
    display visits them. *)
Definition first_keys (entries : list (K * V)) : list K :=
  fold_left (fun seen k => if existsb (keq k) seen then seen else seen ++ [k])
            (map fst entries) [].

End PyDict.

(** Tuples of ints as dict keys. *)
Fixpoint tuple_eqb (a b : list Z) : bool :=
  match a, b with
  | [], [] => true
  | x :: a', y :: b' => (x =? y)%Z && tuple_eqb a' b'
  | _, _ => false
  end.

(** Sum of a list of weights, each the rational its decimal literal
    denotes, added exactly. *)
Definition wsum (l : list Q) : Q := fold_right Qplus 0 l.

(* ===================================================================== *)
(** * fltsupp.py: the transaction database                               *)
(* ===================================================================== *)

(** The entries of the dict display of [fltsupp.py], lines 22-30. *)
Definition tracts_display : list (list Z * Q) :=
  [ ([1; 2; 3]%Z,    0.5);
    ([1; 4; 5]%Z,    1.2);
    ([2; 3; 4]%Z,    0.8);
    ([1; 2; 3; 4]%Z, 0.3);
    ([2; 3]%Z,       1.5);
    ([1; 2; 4]%Z,    0.9);
    ([4; 5]%Z,       0.6);
    ([1; 2; 3; 4]%Z, 1.0);
    ([3; 4; 5]%Z,    0.7) ].

Definition tracts : dict (K := list Z) (V := Q) :=
  dict_display tuple_eqb tracts_display.

(** The weight stored under a key, and the sum of the weights of all the
    entries a list holds for that key. *)
Definition recorded_weight (k : list Z) (d : list (list Z * Q)) : Q :=
  wsum (entries_of tuple_eqb k d).

(* ===================================================================== *)
(** * Mining engine                                                      *)
(* ===================================================================== *)

(** The functions [apriori], [eclat], [fpgrowth] and [fim] that
    [fltsupp.py] imports live in the C sources listed in [setup.py]
    ([apriori/src/apriori.c], [eclat/src/eclat.c], ...).  The definitions of
    this part follow the specification of the engine: its data model
    (section 3), its components (section 4) and its interfaces (section 6).
    An item is identified with its item code. *)

Abbreviation item := Z (only parsing).
Definition itemset : Type := list item.
Definition transaction : Type := (list item * Q)%type.
Definition database : Type := list transaction.
Definition pattern : Type := (itemset * Q)%type.

(** ** TransactionDatabase *)

(** Modelled from the spec: a transaction is a sequence of distinct item
    codes, sorted ascending (section 3); [insert_item] puts an item into
    such a sequence. *)
Fixpoint insert_item (x : item) (l : list item) : list item :=
  match l with
  | [] => [x]
  | y :: l' =>
      if (x <? y)%Z then x :: l
      else if (x =? y)%Z then l
      else y :: insert_item x l'
  end.

Definition normalize (t : list item) : list item :=
  fold_right insert_item [] t.

(** Modelled from the spec: the TransactionDatabase (sections 3 and 4.2)
    built from the input transactions, each with its weight. *)
Definition mk_db (raw : list (list item * Q)) : database :=
  map (fun tr => (normalize (fst tr), snd tr)) raw.

(** Modelled from the spec: the item codes of the database, ascending
    (section 3). *)
Definition db_items (db : database) : list item :=
  fold_right (fun tr acc => fold_right insert_item acc (fst tr)) [] db.

(** Modelled from the spec: the total weighted transaction count
    (section 4.2). *)
Definition total_weight (db : database) : Q := wsum (map snd db).

Definition has (x : item) (t : list item) : bool := existsb (Z.eqb x) t.

Definition contains (I t : list item) : bool :=
  forallb (fun x => has x t) I.

(** Modelled from the spec: the support of an itemset is the sum of the
    weights of the transactions that are supersets of it (section 3). *)
Definition support (db : database) (I : itemset) : Q :=
  wsum (map snd (filter (fun tr => contains I (fst tr)) db)).

(** The transaction of index [i], and the indices of all transactions. *)
Definition tract_at (db : database) (i : nat) : transaction :=
  nth i db ([], 0).

Definition tids (db : database) : list nat := seq 0 (length db).

(** Modelled from the spec: [verticalList(item)], the ordered sequence of
    the indices of the transactions containing the item (section 4.2). *)
Definition verticalList (db : database) (j : item) : list nat :=
  filter (fun i => has j (fst (tract_at db i))) (tids db).

(** The items of a transaction that stand before item [i], when the
    transaction contains [i]. *)
Fixpoint prefix_before (i : item) (t : list item) : option (list item) :=
  match t with
  | [] => None
  | x :: t' =>
      if (x =? i)%Z then Some []
      else option_map (cons x) (prefix_before i t')
  end.

(** Modelled from the spec: [project(item)], the transactions containing
    the item, with the item removed (section 4.2), here cut before the
    item as the paths of the prefix tree are (section 4.3). *)
Definition project (i : item) (db : database) : database :=
  flat_map (fun tr => match prefix_before i (fst tr) with
                      | Some p => [(p, snd tr)]
                      | None => []
                      end) db.

(** ** Support threshold *)

(** Modelled from the spec: the sign convention of the support threshold
    (sections 3 and 6): negative is an absolute minimum weighted count,
    non-negative a minimum percentage of the total weight. *)
Definition resolve_threshold (supp : Q) (total : Q) : Q :=
  if Qlt_le_dec supp 0 then - supp else supp / 100 * total.

(** Modelled from the spec: the threshold is an inclusive lower bound
    (section 4.3). *)
Definition frequent (t : Q) (s : Q) : bool := Qle_bool t s.

(** ** SearchEngine: breadth-first, level-wise *)

Fixpoint last_code (I : itemset) : option item :=
  match I with
  | [] => None
  | [x] => Some x
  | _ :: I' => last_code I'
  end.

Definition larger_than_last (I : itemset) (j : item) : bool :=
  match last_code I with
  | None => true
  | Some l => (l <? j)%Z
  end.

(** Modelled from the spec: a frontier node is extended with the items
    larger than its last code (section 4.3, breadth-first). *)
Definition extend (items : list item) (I : itemset) : list itemset :=
  map (fun j => I ++ [j]) (filter (larger_than_last I) items).

(** Modelled from the spec: the supports of the candidates of a level are
    counted by a scan of the database (section 4.3, breadth-first). *)
Definition count_level (db : database) (cands : list itemset) : list pattern :=
  map (fun I => (I, support db I)) cands.

(** Modelled from the spec: the candidates whose support falls below the
    threshold are pruned (section 4.3, breadth-first). *)
Definition prune (t : Q) (counted : list pattern) : list pattern :=
  filter (fun p => frequent t (snd p)) counted.

(** Modelled from the spec: the size-(k+1) frontier from the size-k
    frontier (section 4.3, breadth-first). *)
Definition next_level (db : database) (t : Q) (items : list item)
  (frontier : list pattern) : list pattern :=
  prune t (count_level db (flat_map (fun p => extend items (fst p)) frontier)).

(** Modelled from the spec: the search terminates when a level produces
    no survivors (section 4.3, breadth-first).  The loop returns the
    levels it went through, and [None] when the bound on the number of
    levels is used up before an empty level is met. *)
Fixpoint level_loop (db : database) (t : Q) (items : list item)
  (bound : nat) (frontier : list pattern) : option (list pattern) :=
  match frontier with
  | [] => Some []
  | _ :: _ =>
      match bound with
      | O => None
      | S b =>
          option_map (app frontier)
            (level_loop db t items b (next_level db t items frontier))
      end
  end.

(** Modelled from the spec: the breadth-first strategy from the root, the
    empty itemset (section 4.3); an itemset has at most as many items as
    the database, which bounds the levels. *)
Definition breadth_first (db : database) (t : Q) : option (list pattern) :=
  let items := db_items db in
  level_loop db t items (S (length items)) (prune t (count_level db [[]])).

(** ** SearchEngine: depth-first, vertical intersection *)

(** Modelled from the spec: the intersection of two transaction-index
    lists, and the support of a list: the sum of the weights of its
    transactions (section 4.3, depth-first and shared policies). *)
Definition intersect (a b : list nat) : list nat :=
  filter (fun i => existsb (Nat.eqb i) b) a.

Definition tid_weight (db : database) (l : list nat) : Q :=
  wsum (map (fun i => snd (tract_at db i)) l).

Definition is_empty {A : Type} (l : list A) : bool :=
  match l with [] => true | _ => false end.

(** Modelled from the spec: for each item in ascending code order the
    vertical list of the item is intersected with the transaction list of
    the current path; the recursion descends while the intersection is
    non-empty and reaches the threshold (section 4.3, depth-first).  By the
    policy shared by all strategies the support of the intersection is the
    sum of the weights of its transactions, and the threshold is an
    inclusive lower bound. *)
Fixpoint dfs (db : database) (t : Q) (pre : itemset) (cover : list nat)
  (rest : list item) : list pattern :=
  match rest with
  | [] => []
  | j :: rest' =>
      let cov := intersect cover (verticalList db j) in
      let s := tid_weight db cov in
      (if negb (is_empty cov) && frequent t s
       then (pre ++ [j], s) :: dfs db t (pre ++ [j]) cov rest'
       else [])
      ++ dfs db t pre cover rest'
  end.

(** Modelled from the spec: the depth-first strategy from the root, the
    empty itemset, whose transaction list is the whole database
    (section 4.3). *)
Definition depth_first (db : database) (t : Q) : list pattern :=
  let s := tid_weight db (tids db) in
  if frequent t s then ([], s) :: dfs db t [] (tids db) (db_items db) else [].

(** ** SearchEngine: tree projection *)

(** Modelled from the spec: the compressed prefix tree over the
    transactions, a node per distinct item-code prefix with a count
    (section 4.3, tree projection), in first-child / next-sibling form. *)
Inductive ptree : Type :=
| Leaf
| Node (i : item) (c : Q) (child sibling : ptree).

(** Modelled from the spec: transactions are merged into the tree along
    their common prefixes, the counts of the nodes on the way growing by
    the weight of the transaction (section 4.3, tree projection). *)
Fixpoint chain (t : list item) (w : Q) : ptree :=
  match t with
  | [] => Leaf
  | x :: t' => Node x w (chain t' w) Leaf
  end.

Fixpoint tree_insert (T : ptree) (t : list item) (w : Q) : ptree :=
  match t with
  | [] => T
  | x :: t' =>
      match T with
      | Leaf => chain t w
      | Node j c ch sib =>
          if (x =? j)%Z then Node j (c + w) (tree_insert ch t' w) sib
          else Node j c ch (tree_insert sib t w)
      end
  end.

Definition build (db : database) : ptree :=
  fold_left (fun T tr => tree_insert T (fst tr) (snd tr)) db Leaf.

(** Modelled from the spec: the conditional database of an item read
    from the tree: for every node of the item, the path from the root to
    the node with the node's count (section 4.3, tree projection). *)
Fixpoint cond_base (i : item) (path : list item) (T : ptree) : database :=
  match T with
  | Leaf => []
  | Node j c ch sib =>
      (if (j =? i)%Z then [(rev path, c)] else cond_base i (j :: path) ch)
      ++ cond_base i path sib
  end.

(** Modelled from the spec: for each frequent item of the tree the
    conditional sub-tree (the transactions containing the item, the item
    removed) is projected and mined on its own; supports are read from the
    node counts (section 4.3, tree projection). *)
Fixpoint fpg (t : Q) (suf : itemset) (T : ptree) (items_desc : list item)
  : list pattern :=
  match items_desc with
  | [] => []
  | i :: rest =>
      let base := cond_base i [] T in
      let s := wsum (map snd base) in
      (if negb (is_empty base) && frequent t s
       then (i :: suf, s) :: fpg t (i :: suf) (build base) rest
       else [])
      ++ fpg t suf T rest
  end.

(** Modelled from the spec: the tree-projection strategy from the root,
    the empty itemset, on the tree of the whole database (section 4.3). *)
Definition tree_projection (db : database) (t : Q) : list pattern :=
  let s := total_weight db in
  if frequent t s then ([], s) :: fpg t [] (build db) (rev (db_items db))
  else [].

(** ** PatternReporter and the callable surface *)

(** Modelled from the spec: the SearchEngine is polymorphic over the
    traversal strategies (sections 2 and 4.3). *)
Inductive strategy : Type := BreadthFirst | DepthFirst | TreeProjection.

Definition search (S : strategy) (db : database) (t : Q)
  : option (list pattern) :=
  match S with
  | BreadthFirst => breadth_first db t
  | DepthFirst => Some (depth_first db t)
  | TreeProjection => Some (tree_projection db t)
  end.

(** Modelled from the spec: the reporter keeps the patterns whose size is
    at least [zmin], in the order received (section 4.5); [zmax] is left at
    its default, unbounded. *)
Definition report (zmin : Z) (out : list pattern) : list pattern :=
  filter (fun p => (zmin <=? Z.of_nat (length (fst p)))%Z) out.

(** Modelled from the spec: the error taxonomy of section 7. *)
Inductive error : Type :=
| InvalidInputError
| ArithmeticOverflowError
| AbortedError
| MissingSupportDataError.

(** The outcome of a mining call: the reported patterns, an error of the
    taxonomy of section 7, or [Unfinished] when the level loop used up its
    bound. *)
Inductive result : Type :=
| Patterns (out : list pattern)
| Raised (e : error)
| Unfinished.

(** Modelled from the spec: a mining call with an absolute threshold [t]:
    encoding fails with [InvalidInputError] when the total transaction count
    is zero (section 4.1); the patterns found go through the reporter
    (section 2, data flow). *)
Definition mine_abs (S : strategy) (raw : list (list item * Q)) (t : Q)
  (zmin : Z) : result :=
  match raw with
  | [] => Raised InvalidInputError
  | _ :: _ =>
      match search S (mk_db raw) t with
      | Some out => Patterns (report zmin out)
      | None => Unfinished
      end
  end.

(** Modelled from the spec: a mining call as the host language makes it:
    the transactions, the support threshold with its sign convention, the
    minimum size (section 6). *)
Definition mine (S : strategy) (raw : list (list item * Q)) (supp : Q)
  (zmin : Z) : result :=
  mine_abs S raw (resolve_threshold supp (total_weight (mk_db raw))) zmin.

(** Modelled from the spec: the functions [fltsupp.py] imports, each a
    strategy of the engine (section 4.3). *)
Definition apriori := mine BreadthFirst.
Definition eclat := mine DepthFirst.
Definition fpgrowth := mine TreeProjection.

(** Supports in lowest terms, to display an output. *)
Definition canon (p : pattern) : pattern := (fst p, Qred (snd p)).
Definition canon_result (r : result) : result :=
  match r with Patterns out => Patterns (map canon out) | _ => r end.

(** ** Itemsets, databases and outputs in the statements *)

(** Strictly ascending lists of item codes. *)
Fixpoint ascending (l : list item) : Prop :=
  match l with
  | [] => True
  | x :: l' => Forall (fun y => (x < y)%Z) l' /\ ascending l'
  end.

Definition nonneg_weights (db : database) : Prop :=
  Forall (fun tr => 0 <= snd tr) db.

Definition positive_weights (db : database) : Prop :=
  Forall (fun tr => 0 < snd tr) db.

Definition covered (db : database) (I : itemset) : Prop :=
  exists tr, In tr db /\ contains I (fst tr) = true.

Definition all_ascending (D : database) : Prop :=
  forall tr, In tr D -> ascending (fst tr).

Definition descending (l : list item) : Prop := ascending (rev l).

(** The depth-first and the tree strategies walk the item list and either
    take or skip each item: the itemsets they reach are the subsequences
    of the list. *)
Inductive subseq : list item -> list item -> Prop :=
| sub_nil : subseq [] []
| sub_take x K L : subseq K L -> subseq (x :: K) (x :: L)
| sub_skip x K L : subseq K L -> subseq K (x :: L).

#[local] Hint Constructors subseq : core.

(** The frontier of size [k] of the breadth-first strategy. *)
Fixpoint level (db : database) (t : Q) (items : list item) (k : nat)
  : list pattern :=
  match k with
  | O => prune t (count_level db [[]])
  | S k' => next_level db t items (level db t items k')
  end.

(** The transaction list of an itemset. *)
Definition cover_of (db : database) (I : itemset) : list nat :=
  filter (fun i => contains I (fst (tract_at db i))) (tids db).

(** What inserting one transaction does to a conditional pattern base:
    a new path with the transaction's weight, or the weight added to the
    count of the node that already stands for the path. *)
Inductive merge_entry (p : list item) (w : Q) : database -> database -> Prop :=
| me_new D1 D2 : merge_entry p w (D1 ++ D2) (D1 ++ (p, w) :: D2)
| me_add D1 c D2 :
    merge_entry p w (D1 ++ (p, c) :: D2) (D1 ++ (p, c + w) :: D2).

(** Two outputs hold the same set of (itemset, support) pairs. *)
Definition has_pattern (out : list pattern) (I : itemset) (s : Q) : Prop :=
  exists s', In (I, s') out /\ s' == s.

Definition same_patterns (o1 o2 : list pattern) : Prop :=
  forall I s, has_pattern o1 I s <-> has_pattern o2 I s.

Definition same_result (r1 r2 : result) : Prop :=
  match r1, r2 with
  | Patterns o1, Patterns o2 => same_patterns o1 o2
  | Raised e1, Raised e2 => e1 = e2
  | _, _ => False
  end.

(* ===================================================================== *)
(** * Mining engine: the arithmetic of the weights                       *)
(* ===================================================================== *)

(** [fltsupp.py] tests the engine "with floating point support", built
    with [SUPP=double] (lines 4-5): its weights are Python floats, binary64
    numbers, and a sum of binary64 numbers depends on the order in which
    they are added.  The definitions above add the weights as the exact
    rationals the decimal literals denote.  Module [Engine] holds the same
    components with the arithmetic of the weights left open, to be run on
    exact rationals ([exact]) and on binary64 numbers ([binary64]). *)

Module Engine.

(** The operations an engine needs on weights, supports and thresholds. *)
Record arith (W : Type) : Type := Arith {
  zero : W;
  hundred : W;
  add : W -> W -> W;
  mul : W -> W -> W;
  div : W -> W -> W;
  opp : W -> W;
  is_negative : W -> bool;
  leb : W -> W -> bool
}.

Arguments zero {W}.
Arguments hundred {W}.
Arguments add {W}.
Arguments mul {W}.
Arguments div {W}.
Arguments opp {W}.
Arguments is_negative {W}.
Arguments leb {W}.

(** Modelled from the spec: the compressed prefix tree (section 4.3, tree
    projection), in first-child / next-sibling form. *)
Inductive ptree (W : Type) : Type :=
| Leaf
| Node (i : item) (c : W) (child sibling : ptree W).

Arguments Leaf {W}.
Arguments Node {W}.

(** The outcome of a mining call. *)
Inductive result (W : Type) : Type :=
| Patterns (out : list (itemset * W))
| Raised (e : error)
| Unfinished.

Arguments Patterns {W}.
Arguments Raised {W}.
Arguments Unfinished {W}.

Section Arithmetic.
Context {W : Type}.
Variable ar : arith W.

Definition transaction : Type := (list item * W)%type.
Definition database : Type := list transaction.
Definition pattern : Type := (itemset * W)%type.

(** Sum of a list of weights. *)
Definition wsum (l : list W) : W := fold_right (add ar) (zero ar) l.

(** Modelled from the spec: the TransactionDatabase (sections 3 and 4.2)
    built from the input transactions, each with its weight. *)
Definition mk_db (raw : list (list item * W)) : database :=
  map (fun tr => (normalize (fst tr), snd tr)) raw.

(** Modelled from the spec: the item codes of the database, ascending
    (section 3). *)
Definition db_items (db : database) : list item :=
  fold_right (fun tr acc => fold_right insert_item acc (fst tr)) [] db.

(** Modelled from the spec: the total weighted transaction count
    (section 4.2). *)
Definition total_weight (db : database) : W := wsum (map snd db).

(** Modelled from the spec: the support of an itemset is the sum of the
    weights of the transactions that are supersets of it (section 3). *)
Definition support (db : database) (I : itemset) : W :=
  wsum (map snd (filter (fun tr => contains I (fst tr)) db)).

Definition tract_at (db : database) (i : nat) : transaction :=
  nth i db ([], zero ar).

Definition tids (db : database) : list nat := seq 0 (length db).

(** Modelled from the spec: [verticalList(item)] (section 4.2). *)
Definition verticalList (db : database) (j : item) : list nat :=
  filter (fun i => has j (fst (tract_at db i))) (tids db).

(** Modelled from the spec: the sign convention of the support threshold
    (sections 3 and 6). *)
Definition resolve_threshold (supp : W) (total : W) : W :=
  if is_negative ar supp then opp ar supp
  else mul ar (div ar supp (hundred ar)) total.

(** Modelled from the spec: the threshold is an inclusive lower bound
    (section 4.3). *)
Definition frequent (t : W) (s : W) : bool := leb ar t s.

(** Modelled from the spec: the breadth-first, level-wise strategy
    (section 4.3). *)
Definition count_level (db : database) (cands : list itemset) : list pattern :=
  map (fun I => (I, support db I)) cands.

Definition prune (t : W) (counted : list pattern) : list pattern :=
  filter (fun p => frequent t (snd p)) counted.

Definition next_level (db : database) (t : W) (items : list item)
  (frontier : list pattern) : list pattern :=
  prune t (count_level db (flat_map (fun p => extend items (fst p)) frontier)).

Fixpoint level_loop (db : database) (t : W) (items : list item)
  (bound : nat) (frontier : list pattern) : option (list pattern) :=
  match frontier with
  | [] => Some []
  | _ :: _ =>
      match bound with
      | O => None
      | S b =>
          option_map (app frontier)
            (level_loop db t items b (next_level db t items frontier))
      end
  end.

Definition breadth_first (db : database) (t : W) : option (list pattern) :=
  let items := db_items db in
  level_loop db t items (S (length items)) (prune t (count_level db [[]])).

(** Modelled from the spec: the depth-first strategy by intersection of
    transaction-index lists (section 4.3). *)
Definition tid_weight (db : database) (l : list nat) : W :=
  wsum (map (fun i => snd (tract_at db i)) l).

Fixpoint dfs (db : database) (t : W) (pre : itemset) (cover : list nat)
  (rest : list item) : list pattern :=
  match rest with
  | [] => []
  | j :: rest' =>
      let cov := intersect cover (verticalList db j) in
      let s := tid_weight db cov in
      (if negb (is_empty cov) && frequent t s
       then (pre ++ [j], s) :: dfs db t (pre ++ [j]) cov rest'
       else [])
      ++ dfs db t pre cover rest'
  end.

Definition depth_first (db : database) (t : W) : list pattern :=
  let s := tid_weight db (tids db) in
  if frequent t s then ([], s) :: dfs db t [] (tids db) (db_items db) else [].

(** Modelled from the spec: the tree-projection strategy: transactions
    merged into the prefix tree, the counts of the nodes on the way growing
    by the weight of the transaction; conditional databases read from the
    tree, supports read from the node counts (section 4.3). *)
Fixpoint chain (t : list item) (w : W) : ptree W :=
  match t with
  | [] => Leaf
  | x :: t' => Node x w (chain t' w) Leaf
  end.

Fixpoint tree_insert (T : ptree W) (t : list item) (w : W) : ptree W :=
  match t with
  | [] => T
  | x :: t' =>
      match T with
      | Leaf => chain t w
      | Node j c ch sib =>
          if (x =? j)%Z then Node j (add ar c w) (tree_insert ch t' w) sib
          else Node j c ch (tree_insert sib t w)
      end
  end.

Definition build (db : database) : ptree W :=
  fold_left (fun T tr => tree_insert T (fst tr) (snd tr)) db Leaf.

Fixpoint cond_base (i : item) (path : list item) (T : ptree W) : database :=
  match T with
  | Leaf => []
  | Node j c ch sib =>
      (if (j =? i)%Z then [(rev path, c)] else cond_base i (j :: path) ch)
      ++ cond_base i path sib
  end.

Fixpoint fpg (t : W) (suf : itemset) (T : ptree W) (items_desc : list item)
  : list pattern :=
  match items_desc with
  | [] => []
  | i :: rest =>
      let base := cond_base i [] T in
      let s := wsum (map snd base) in
      (if negb (is_empty base) && frequent t s
       then (i :: suf, s) :: fpg t (i :: suf) (build base) rest
       else [])
      ++ fpg t suf T rest
  end.

Definition tree_projection (db : database) (t : W) : list pattern :=
  let s := total_weight db in
  if frequent t s then ([], s) :: fpg t [] (build db) (rev (db_items db))
  else [].

(** Modelled from the spec: the strategies behind one interface, the
    reporter and the mining call (sections 4.3, 4.5 and 6). *)
Definition search (S : strategy) (db : database) (t : W)
  : option (list pattern) :=
  match S with
  | BreadthFirst => breadth_first db t
  | DepthFirst => Some (depth_first db t)
  | TreeProjection => Some (tree_projection db t)
  end.

Definition report (zmin : Z) (out : list pattern) : list pattern :=
  filter (fun p => (zmin <=? Z.of_nat (length (fst p)))%Z) out.

Definition mine_abs (S : strategy) (raw : list (list item * W)) (t : W)
  (zmin : Z) : result W :=
  match raw with
  | [] => Raised InvalidInputError
  | _ :: _ =>
      match search S (mk_db raw) t with
      | Some out => Patterns (report zmin out)
      | None => Unfinished
      end
  end.

Definition mine (S : strategy) (raw : list (list item * W)) (supp : W)
  (zmin : Z) : result W :=
  mine_abs S raw (resolve_threshold supp (total_weight (mk_db raw))) zmin.

Definition apriori := mine BreadthFirst.
Definition eclat := mine DepthFirst.
Definition fpgrowth := mine TreeProjection.

(** Two outputs hold the same set of (itemset, support) pairs. *)
Definition same_patterns (o1 o2 : list pattern) : Prop :=
  forall I s, In (I, s) o1 <-> In (I, s) o2.

Definition same_result (r1 r2 : result W) : Prop :=
  match r1, r2 with
  | Patterns o1, Patterns o2 => same_patterns o1 o2
  | Raised e1, Raised e2 => e1 = e2
  | _, _ => False
  end.
End Arithmetic.

(** Weights added exactly, as rationals: the arithmetic of the
    definitions above. *)
Definition exact : arith Q :=
  Arith Q 0 100 Qplus Qmult Qdiv Qopp
        (fun q => if Qlt_le_dec q 0 then true else false) Qle_bool.

(** Weights as the program has them, binary64 numbers, every operation
    rounded to nearest. *)
Definition binary64 : arith float :=
  Arith float 0%float 100%float PrimFloat.add PrimFloat.mul PrimFloat.div
        PrimFloat.opp (fun x => PrimFloat.ltb x 0%float) PrimFloat.leb.

End Engine.

(** An outcome and a prefix tree of module [Engine] in exact arithmetic as
    an outcome and a prefix tree of the definitions above. *)
Definition as_result (r : Engine.result Q) : result :=
  match r with
  | Engine.Patterns out => Patterns out
  | Engine.Raised e => Raised e
  | Engine.Unfinished => Unfinished
  end.

Fixpoint as_ptree (T : Engine.ptree Q) : ptree :=
  match T with
  | Engine.Leaf => Leaf
  | Engine.Node i c ch sib => Node i c (as_ptree ch) (as_ptree sib)
  end.

(** The binary64 number a decimal literal denotes: numerator and
    denominator of the literals at hand are integers binary64 holds exactly,
    and their quotient is rounded to nearest, as Python rounds the literal. *)
Definition float_of_Z (z : Z) : float :=
  match z with
  | Z0 => 0%float
  | Zpos _ => PrimFloat.of_uint63 (Uint63.of_Z z)
  | Zneg p => PrimFloat.opp (PrimFloat.of_uint63 (Uint63.of_Z (Zpos p)))
  end.

Definition float_of_Q (q : Q) : float :=
  PrimFloat.div (float_of_Z (Qnum q)) (float_of_Z (Zpos (Qden q))).

(** A database of decimal weights as Python holds it. *)
Definition binary64_db (raw : list (list Z * Q)) : list (list Z * float) :=
  map (fun e => (fst e, float_of_Q (snd e))) raw.

Definition tracts64 : list (list Z * float) := binary64_db tracts.


(* ===================================================================== *)
(** * RuleGenerator                                                      *)
(* ===================================================================== *)

(** Modelled from the spec: a Rule: antecedent, consequent, support and
    confidence (section 3). *)
Record rule : Type := mk_rule {
  antecedent : itemset;
  consequent : itemset;
  rule_support : Q;
  confidence : Q
}.

(** Computations that can fail with an error of the taxonomy. *)
Definition fallible (A : Type) : Type := (error + A)%type.

Definition bind {A B : Type} (m : fallible A) (f : A -> fallible B)
  : fallible B :=
  match m with
  | inl e => inl e
  | inr a => f a
  end.

Notation "x <- m ;; k" := (bind m (fun x => k))
  (at level 100, m at next level, right associativity).

Fixpoint collect {A B : Type} (f : A -> fallible (list B)) (l : list A)
  : fallible (list B) :=
  match l with
  | [] => inr []
  | a :: l' => bs <- f a ;; rest <- collect f l' ;; inr (bs ++ rest)
  end.

(** The ways to cut an itemset into an antecedent of [k] items and the
    rest of the items as the consequent. *)
Fixpoint splits (I : itemset) (k : nat) : list (itemset * itemset) :=
  match I with
  | [] => match k with O => [([], [])] | S _ => [] end
  | x :: I' =>
      match k with
      | O => [([], I)]
      | S k' =>
          map (fun ac => (x :: fst ac, snd ac)) (splits I' k')
          ++ map (fun ac => (fst ac, x :: snd ac)) (splits I' k)
      end
  end.

(** Modelled from the spec: for a frequent itemset of size at least 2 the
    candidate antecedents are its non-empty proper subsets, by ascending
    size, each with the remaining items as the consequent (section 4.6). *)
Definition candidates (I : itemset) : list (itemset * itemset) :=
  flat_map (splits I) (seq 1 (length I - 1)).

(** Modelled from the spec: confidence = support(itemset) /
    support(antecedent), the support of the antecedent being the one
    retained from the mining phase; a missing one is a
    [MissingSupportDataError]; a rule below [minConfidence] is discarded
    (section 4.6). *)
Definition rule_of (freq : list pattern) (minConf : Q) (I : itemset)
  (sI : Q) (ac : itemset * itemset) : fallible (list rule) :=
  match dict_get tuple_eqb (fst ac) freq with
  | None => inl MissingSupportDataError
  | Some sA =>
      let c := sI / sA in
      inr (if Qle_bool minConf c then [mk_rule (fst ac) (snd ac) sI c] else [])
  end.

(** Modelled from the spec: rules are generated for every frequent
    itemset of size at least 2 (section 4.6). *)
Definition rules_of_itemset (freq : list pattern) (minConf : Q) (p : pattern)
  : fallible (list rule) :=
  if (2 <=? length (fst p))%nat
  then collect (rule_of freq minConf (fst p) (snd p)) (candidates (fst p))
  else inr [].

(** Modelled from the spec: [generate(frequentItemsets, database,
    minConfidence, minSupport)] (section 4.6).  The database is what the
    external evaluation collaborator is given; the confidence does not read
    it. *)
Definition generate (freq : list pattern) (db : database)
  (minConf minSupp : Q) : fallible (list rule) :=
  collect (rules_of_itemset freq minConf)
    (filter (fun p => Qle_bool minSupp (snd p)) freq).

(* ===================================================================== *)
(** * fltsupp.py: the script                                             *)
(* ===================================================================== *)

(** The four functions imported from the module [fim] (line 10). *)
Inductive fn : Type := Apriori | Eclat | Fpgrowth | Fim.

Inductive py_exn : Type :=
| IndexError
| ValueError
| FimError (e : error).

(** The script is a parameter of what it imports: the result type of the
    mining functions, the functions themselves, and the built-in [int]. *)
Section Script.
Context {R : Type}.
Variable py_int : string -> option Z.
Variable fim_apriori fim_eclat fim_fpgrowth :
  dict (K := list Z) (V := Q) -> Q -> Z -> fallible (list R).
Variable fim_fim :
  dict (K := list Z) (V := Q) -> Q -> Z -> string -> fallible (list R).

(** What [print] is given. *)
Inductive printed : Type :=
| PDoc (f : fn)
| PStr (s : string)
| PTract (t : list Z) (w : Q)
| PResult (r : R).

(** What the script does to the outside: it prints, and it calls the
    mining functions. *)
Inductive event : Type :=
| Print (v : printed)
| Call (f : fn) (db : dict (K := list Z) (V := Q)) (supp : Q) (zmin : Z)
       (report : option string).

(** A run: the events in order, the dict bound to [tracts] if the
    assignment was reached, and the exception that ended the run, if any. *)
Record run : Type := mk_run {
  trace : list event;
  tracts_var : option (dict (K := list Z) (V := Q));
  raised : option py_exn
}.

(** [for r in f(...): print(r)] after the title line. *)
Definition mining_branch (before : list event) (title : string) (f : fn)
  (report : option string) (call : fallible (list R)) : run :=
  let events := before ++ [Print (PStr title); Call f tracts (-1.6) 2 report] in
  match call with
  | inr results =>
      mk_run (events ++ map (fun r => Print (PResult r)) results)
             (Some tracts) None
  | inl e => mk_run events (Some tracts) (Some (FimError e))
  end.

(** Lines 15-44: the dispatch on [tid]. *)
Definition script (tid : Z) : run :=
  if (tid <? -2)%Z then mk_run [Print (PDoc Fpgrowth)] None None
  else if (tid <? -1)%Z then mk_run [Print (PDoc Eclat)] None None
  else if (tid <? 0)%Z then mk_run [Print (PDoc Apriori)] None None
  else
    let before :=
      Print (PStr "transactions:")
      :: map (fun e => Print (PTract (fst e) (snd e))) tracts in
    if (tid <? 1)%Z then
      mining_branch before "apriori(tracts, supp=-1.6, zmin=2):" Apriori None
        (fim_apriori tracts (-1.6) 2)
    else if (tid <? 2)%Z then
      mining_branch before "eclat(tracts, supp=-1.6, zmin=2):" Eclat None
        (fim_eclat tracts (-1.6) 2)
    else if (tid <? 3)%Z then
      mining_branch before "fpgrowth(tracts, supp=-1.6, zmin=2):" Fpgrowth None
        (fim_fpgrowth tracts (-1.6) 2)
    else
      mining_branch before "fim(tracts, supp=-1.6, zmin=2, report='#'):" Fim
        (Some "#"%string) (fim_fim tracts (-1.6) 2 "#").

(** Line 14: [tid = int(argv[1])]. *)
Definition tid_of (argv : list string) : py_exn + Z :=
  match nth_error argv 1 with
  | None => inl IndexError
  | Some s =>
      match py_int s with
      | None => inl ValueError
      | Some n => inr n
      end
  end.

Definition main (argv : list string) : run :=
  match tid_of argv with
  | inl e => mk_run [] None (Some e)
  | inr tid => script tid
  end.

(** The branch of the dispatch an event belongs to. *)
Inductive branch : Type :=
| PrintsDoc (f : fn)
| Runs (f : fn) (report : option string).

Definition branch_of (e : event) : list branch :=
  match e with
  | Print (PDoc f) => [PrintsDoc f]
  | Call f _ _ _ report => [Runs f report]
  | _ => []
  end.

Definition executed (r : run) : list branch := flat_map branch_of (trace r).

Definition calls (r : run) : list event :=
  filter (fun e => match e with Call _ _ _ _ _ => true | _ => false end)
         (trace r).

(** The results and the transactions the script printed, in order. *)
Definition printed_results (r : run) : list R :=
  flat_map (fun e => match e with Print (PResult x) => [x] | _ => [] end)
           (trace r).

Definition printed_tracts (r : run) : list (list Z * Q) :=
  flat_map (fun e => match e with Print (PTract t w) => [(t, w)] | _ => [] end)
           (trace r).

(** What the imported function of a mining branch answers to the call the
    branch makes (lines 35, 38, 41 and 44). *)
Definition answer (f : fn) : fallible (list R) :=
  match f with
  | Apriori => fim_apriori tracts (-1.6) 2
  | Eclat => fim_eclat tracts (-1.6) 2
  | Fpgrowth => fim_fpgrowth tracts (-1.6) 2
  | Fim => fim_fim tracts (-1.6) 2 "#"
  end.

End Script.

(** ** The script on the mining engine of this development *)

(** A fragment of the built-in [int]: an optional sign and decimal
    digits.  (The built-in accepts more, e.g. surrounding blanks.) *)
Definition digit_of (c : ascii) : option Z :=
  let n := Z.of_nat (nat_of_ascii c) in
  if ((48 <=? n) && (n <=? 57))%Z then Some (n - 48)%Z else None.

Fixpoint digits (acc : Z) (s : string) : option Z :=
  match s with
  | EmptyString => Some acc
  | String c s' =>
      match digit_of c with
      | Some d => digits (10 * acc + d) s'
      | None => None
      end
  end.

Definition decimal_int (s : string) : option Z :=
  match s with
  | EmptyString => None
  | String "-" (String c s') => option_map Z.opp (digits 0 (String c s'))
  | String "+" (String c s') => digits 0 (String c s')
  | _ => digits 0 s
  end.

(** The outcome of a mining call as the script sees it: the list of the
    patterns, or the exception.  ([mine_finishes]: the call never ends
    [Unfinished].) *)
Definition as_fallible (r : result) : fallible (list pattern) :=
  match r with
  | Patterns out => inr out
  | Raised e => inl e
  | Unfinished => inr []
  end.

Definition fltsupp
  (fim_fim : dict (K := list Z) (V := Q) -> Q -> Z -> string
             -> fallible (list pattern))
  (argv : list string) : run (R := pattern) :=
  main decimal_int
    (fun d supp zmin => as_fallible (apriori d supp zmin))
    (fun d supp zmin => as_fallible (eclat d supp zmin))
    (fun d supp zmin => as_fallible (fpgrowth d supp zmin))
    fim_fim argv.

(** The script on the three strategies of this development and a [fim]
    that finds nothing. *)
Definition fltsupp_script (tid : Z) : run (R := pattern) :=
  script (fun d supp zmin => as_fallible (apriori d supp zmin))
         (fun d supp zmin => as_fallible (eclat d supp zmin))
         (fun d supp zmin => as_fallible (fpgrowth d supp zmin))
         (fun _ _ _ _ => inr []) tid.

Definition fltsupp_answer (f : fn) : fallible (list pattern) :=
  answer (fun d supp zmin => as_fallible (apriori d supp zmin))
         (fun d supp zmin => as_fallible (eclat d supp zmin))
         (fun d supp zmin => as_fallible (fpgrowth d supp zmin))
         (fun _ _ _ _ => inr []) f.

(** ** The values the examples run on *)



Definition apriori_tracts_all : list pattern :=
  Eval vm_compute in
    match apriori tracts (-1.6) 1 with Patterns out => out | _ => [] end.

Definition tracts_rules : list rule :=
  Eval vm_compute in
    match generate apriori_tracts_all (mk_db tracts) 0.7 0 with
    | inr rules => rules
    | inl _ => []
    end.

(** The rule {2} -> {3} of [tracts], of confidence 3.8 / 4.7. *)
Definition rule_2_3 : rule := nth 1 tracts_rules (mk_rule [] [] 0 0).

(* ===================================================================== *)
(** * setup.py                                                           *)
(* ===================================================================== *)

Module SetupPy.
Import stdpp.base stdpp.gmap stdpp.strings.
#[local] Open Scope string_scope.
#[local] Close Scope Q_scope.

(** Lines 6-89. *)
Definition dirs : list string :=
  [ "util/src"; "math/src"; "tract/src"; "apriori/src"; "eclat/src";
    "fpgrowth/src"; "sam/src"; "relim/src"; "carpenter/src"; "ista/src";
    "accretion/src"; "pyfim/src" ].

Definition headers : list string :=
  [ "util/src/arrays.h"; "util/src/memsys.h"; "util/src/symtab.h";
    "util/src/random.h"; "util/src/sigint.h"; "util/src/fntypes.h";
    "math/src/gamma.h"; "math/src/chi2.h"; "math/src/ruleval.h";
    "tract/src/tract.h"; "tract/src/fim16.h"; "tract/src/patspec.h";
    "tract/src/clomax.h"; "tract/src/report.h"; "tract/src/patred.h";
    "apriori/src/istree.h"; "apriori/src/apriori.h"; "eclat/src/eclat.h";
    "fpgrowth/src/fpgrowth.h"; "fpgrowth/src/fpgpsp.h"; "sam/src/sam.h";
    "relim/src/relim.h"; "carpenter/src/repotree.h";
    "carpenter/src/carpenter.h"; "ista/src/pfxtree.h"; "ista/src/pattree.h";
    "ista/src/ista.h"; "accretion/src/accretion.h" ].

Definition sources : list string :=
  [ "util/src/arrays.c"; "util/src/memsys.c"; "util/src/symtab.c";
    "util/src/random.c"; "util/src/sigint.c"; "math/src/chi2.c";
    "math/src/gamma.c"; "math/src/ruleval.c"; "tract/src/tract.c";
    "tract/src/fim16.c"; "tract/src/patspec.c"; "tract/src/clomax.c";
    "tract/src/report.c"; "tract/src/patred.c"; "apriori/src/istree.c";
    "apriori/src/apriori.c"; "eclat/src/eclat.c"; "fpgrowth/src/fpgrowth.c";
    "fpgrowth/src/fpgpsp.c"; "sam/src/sam.c"; "relim/src/relim.c";
    "carpenter/src/repotree.c"; "carpenter/src/carpenter.c";
    "ista/src/pfxtree.c"; "ista/src/pattree.c"; "ista/src/ista.c";
    "accretion/src/accretion.c"; "pyfim/src/pyfim.c" ].

Definition macros : list (string * option string) :=
  [ ("NDEBUG", None); ("IDMAPFN", None); ("TATREEFN", None);
    ("TA_SURR", None); ("PSP_ESTIM", None); ("ISR_PATSPEC", None);
    ("ISR_CLOMAX", None); ("ISR_NONAMES", None); ("ACC_ABORT", None);
    ("APR_ABORT", None); ("ECL_ABORT", None); ("FPG_ABORT", None);
    ("SAM_ABORT", None); ("RELIM_ABORT", None); ("CARP_ABORT", None);
    ("ISTA_ABORT", None) ].

(** The arguments of [Extension] and of [setup] (lines 110-123). *)
Record extension : Type := Extension {
  ext_name : string;
  ext_sources : list string;
  include_dirs : list string;
  define_macros : list (string * option string)
}.

Record setup_args : Type := SetupArgs {
  name : string;
  version : string;
  description : string;
  long_description : string;
  author : string;
  author_email : string;
  maintainer : string;
  maintainer_email : string;
  url : string;
  download_url : string;
  platforms : string;
  license : string;
  ext_modules : list extension
}.

Definition fim_setup_args : setup_args :=
  SetupArgs "fim" "6.28 (2017.03.24)"
    "Frequent Item Set Mining and Association Rule Induction for Python"
    "Frequent Item Set Mining and Association Rule Induction for Python"
    "Christian Borgelt" "christian@borgelt.net"
    "Christian Borgelt" "christian@borgelt.net"
    "http://www.borgelt.net/pyfim.html" "http://www.borgelt.net/pyfim.html"
    "Linux/Unix,Microsoft Windows" "MIT License (Expat License)"
    [Extension "fim" sources dirs macros].

(** The working directory: file names to file contents. *)
Abbreviation files := (gmap string string).

Inductive os_exn : Type :=
| FileNotFoundError (file : string)
| SetupFailed.

(** Statements that read and change the working directory and can raise. *)
Definition M (A : Type) : Type := files -> os_exn + (A * files).

Definition ret {A : Type} (a : A) : M A := fun fs => inr (a, fs).

Definition and_then {A B : Type} (m : M A) (k : A -> M B) : M B :=
  fun fs =>
    match m fs with
    | inl e => inl e
    | inr (a, fs') => k a fs'
    end.

Notation "m ;;; k" := (and_then m (fun _ => k))
  (at level 100, right associativity).

(** [open(file, 'wt')]: the file exists and is empty afterwards. *)
Definition open_wt (file : string) : M unit :=
  fun fs => inr (tt, <[file := ""]> fs).

(** [out.write(s)] on the file opened as [file]. *)
Definition write (file s : string) : M unit :=
  fun fs => inr (tt, alter (fun c => c +:+ s) file fs).

(** [os.remove(file)]. *)
Definition remove (file : string) : M unit :=
  fun fs =>
    match fs !! file with
    | Some _ => inr (tt, delete file fs)
    | None => inl (FileNotFoundError file)
    end.

Fixpoint for_each {A : Type} (l : list A) (body : A -> M unit) : M unit :=
  match l with
  | [] => ret tt
  | a :: l' => body a ;;; for_each l' body
  end.

Definition nl : string := String (ascii_of_nat 10) "".

(** Lines 91-92. *)
Definition write_manifest : M unit :=
  open_wt "MANIFEST.in" ;;;
  for_each headers (fun h => write "MANIFEST.in" ("include " +:+ h +:+ nl)).

(** Lines 93-108. *)
Definition readme_lines : list string :=
  [ "Call help() on the functions"; "  fim"; "  arules"; "  apriori";
    "  eclat"; "  fpgrowth"; "  sam"; "  relim"; "  carpenter"; "  ista";
    "  accretion"; "  apriacc"; "  patspec"; "  estpsp";
    "for explanations about their parameters." ].

Definition write_readme : M unit :=
  open_wt "README" ;;;
  for_each readme_lines (fun l => write "README" (l +:+ nl)).

Section Setup.
(** [distutils.core.setup]: what it does to the working directory is not
    part of this repository. *)
Variable setup : setup_args -> files -> os_exn + files.

Definition call_setup (args : setup_args) : M unit :=
  fun fs =>
    match setup args fs with
    | inl e => inl e
    | inr fs' => inr (tt, fs')
    end.

(** Lines 125-126. *)
Definition cleanup : M unit := remove "MANIFEST.in" ;;; remove "README".

Definition setup_py : M unit :=
  write_manifest ;;; write_readme ;;; call_setup fim_setup_args ;;; cleanup.

(** The contents of the two files once they are written. *)
Definition manifest_text : string :=
  fold_left (fun c h => c +:+ ("include " +:+ h +:+ nl)) headers "".

Definition readme_text : string :=
  fold_left (fun c l => c +:+ (l +:+ nl)) readme_lines "".

Definition written (fs : files) : files :=
  <["README" := readme_text]> (<["MANIFEST.in" := manifest_text]> fs).

End Setup.

(** ** The directory a run leaves behind, also when it raises *)

(** A statement together with the directory it leaves, whether it returns
    or raises. *)
Definition Tracked (A : Type) : Type := files -> (os_exn + A) * files.

(** [open], [write] and [os.remove] leave the directory as it is when they
    raise. *)
Definition atomic {A : Type} (m : M A) : Tracked A :=
  fun fs =>
    match m fs with
    | inl e => (inl e, fs)
    | inr (a, fs') => (inr a, fs')
    end.

(** Statements in sequence: an exception ends the run where it is. *)
Definition tracked_then {A B : Type} (m : Tracked A) (k : A -> Tracked B)
  : Tracked B :=
  fun fs =>
    match m fs with
    | (inl e, fs') => (inl e, fs')
    | (inr a, fs') => k a fs'
    end.

Notation "m >>> k" := (tracked_then m (fun _ => k))
  (at level 100, right associativity).

(** What is left of a tracked statement when the directory of a failed run
    is dropped. *)
Definition forget {A : Type} (m : Tracked A) : M A :=
  fun fs =>
    match m fs with
    | (inl e, _) => inl e
    | (inr a, fs') => inr (a, fs')
    end.

Section SetupTracked.
(** [distutils.core.setup] with the directory it leaves. *)
Variable setup_tracked : setup_args -> Tracked unit.

(** The whole of [setup.py] (lines 91-126); there is no [try] around the
    call of [setup] or around the two [remove]s. *)
Definition setup_py_tracked : Tracked unit :=
  atomic write_manifest >>> atomic write_readme >>>
  setup_tracked fim_setup_args >>>
  atomic (remove "MANIFEST.in") >>> atomic (remove "README").

(** [setup] as [setup_py] above takes it: the directory of a failed call
    dropped. *)
Definition setup_of_tracked (args : setup_args) (fs : files)
  : os_exn + files :=
  match setup_tracked args fs with
  | (inl e, _) => inl e
  | (inr _, fs') => inr fs'
  end.
End SetupTracked.

(** Three ways [setup] can behave, for the examples: it leaves the
    directory alone; it raises (as [distutils] does without a command); it
    deletes one of the generated files. *)
Definition setup_idle : setup_args -> Tracked unit :=
  fun _ fs => (inr tt, fs).

Definition setup_raising : setup_args -> Tracked unit :=
  fun _ fs => (inl SetupFailed, fs).

Definition setup_deleting (file : string) : setup_args -> Tracked unit :=
  fun _ fs => (inr tt, delete file fs).

(** A directory holding this script and a README of the user's. *)
Definition some_files : files :=
  <["README" := "mine"]> (<["setup.py" := "..."]> ∅).
End SetupPy.

(* ===================================================================== *)
(** * Part II: proofs                                                    *)
(* ===================================================================== *)

(* ===================================================================== *)
(** * Python dicts                                                       *)
(* ===================================================================== *)

Section PyDictFacts.
Context {K V : Type}.
Variable keq : K -> K -> bool.
Hypothesis keq_spec : forall a b, keq a b = true <-> a = b.

Lemma keq_refl k : keq k k = true.
Proof. now apply keq_spec. Qed.

Lemma dict_get_set_same k (v : V) d :
  dict_get keq k (dict_set keq k v d) = Some v.
Proof.
  induction d as [|[k' v'] d IH]; simpl.
  - now rewrite keq_refl.
  - destruct (keq k k') eqn:E; simpl; rewrite E; auto.
Qed.

Lemma dict_get_set_other k k' (v : V) d :
  keq k' k = false -> dict_get keq k' (dict_set keq k v d) = dict_get keq k' d.
Proof.
  intros Hne. induction d as [|[k0 v0] d IH]; simpl.
  - now rewrite Hne.
  - destruct (keq k k0) eqn:E; simpl.
    + apply keq_spec in E. subst k0. now rewrite Hne.
    + now rewrite IH.
Qed.

Lemma dict_set_present_length k (v : V) d :
  dict_get keq k d <> None -> length (dict_set keq k v d) = length d.
Proof.
  induction d as [|[k0 v0] d IH]; simpl; intros H.
  - congruence.
  - destruct (keq k k0); simpl; auto.
Qed.

Lemma dict_get_fold_other k (es : list (K * V)) : forall d,
  (forall e, In e es -> keq k (fst e) = false) ->
  dict_get keq k (fold_left (fun d e => dict_set keq (fst e) (snd e) d) es d)
  = dict_get keq k d.
Proof.
  induction es as [|e es IH]; simpl; intros d H; auto.
  rewrite IH by auto. apply dict_get_set_other. auto.
Qed.

(** In a dict display the last entry written under a key wins. *)
Lemma dict_display_last_wins es1 k (v : V) es2 :
  (forall e, In e es2 -> keq k (fst e) = false) ->
  dict_get keq k (dict_display keq (es1 ++ (k, v) :: es2)) = Some v.
Proof.
  intros H. unfold dict_display.
  rewrite fold_left_app. simpl.
  rewrite dict_get_fold_other by assumption.
  apply dict_get_set_same.
Qed.
Lemma existsb_keq_In k (l : list K) : existsb (keq k) l = true <-> In k l.
Proof.
  rewrite existsb_exists. split.
  - intros [x [Hx E]]. apply keq_spec in E. now subst.
  - intros H. exists k. split; [assumption | apply keq_refl].
Qed.

Lemma dict_set_keys k (v : V) d :
  dict_keys (dict_set keq k v d)
  = if existsb (keq k) (dict_keys d) then dict_keys d else dict_keys d ++ [k].
Proof.
  unfold dict_keys. induction d as [|[k0 v0] d IH]; simpl.
  - reflexivity.
  - destruct (keq k k0); simpl.
    + reflexivity.
    + rewrite IH. destruct (existsb (keq k) (map fst d)); reflexivity.
Qed.

Lemma dict_set_NoDup k (v : V) d :
  NoDup (dict_keys d) -> NoDup (dict_keys (dict_set keq k v d)).
Proof.
  intros H. rewrite dict_set_keys.
  destruct (existsb (keq k) (dict_keys d)) eqn:E; [assumption|].
  apply NoDup_app; [assumption | repeat constructor; intros [] | ].
  intros x Hx [<- | []].
  apply existsb_keq_In in Hx. congruence.
Qed.

Lemma dict_set_keys_In k k' (v : V) d :
  In k' (dict_keys (dict_set keq k v d)) <-> k' = k \/ In k' (dict_keys d).
Proof.
  rewrite dict_set_keys.
  destruct (existsb (keq k) (dict_keys d)) eqn:E.
  - apply existsb_keq_In in E. split; [auto|]. intros [-> | H]; auto.
  - rewrite in_app_iff. simpl. intuition.
Qed.

Lemma dict_get_Some_In k (v : V) d : dict_get keq k d = Some v -> In (k, v) d.
Proof.
  induction d as [|[k0 v0] d IH]; simpl; [discriminate|].
  destruct (keq k k0) eqn:E.
  - apply keq_spec in E. subst. intros H. inversion H. auto.
  - auto.
Qed.

Lemma dict_get_None k (d : dict (K := K) (V := V)) :
  dict_get keq k d = None <-> ~ In k (dict_keys d).
Proof.
  unfold dict_keys. induction d as [|[k0 v0] d IH]; simpl.
  - tauto.
  - destruct (keq k k0) eqn:E.
    + apply keq_spec in E. subst. split; [discriminate | tauto].
    + rewrite IH. split; [|tauto].
      intros H [-> | H']; [|tauto]. rewrite keq_refl in E. discriminate.
Qed.

Lemma dict_get_In_NoDup k (v : V) d :
  NoDup (dict_keys d) -> In (k, v) d -> dict_get keq k d = Some v.
Proof.
  unfold dict_keys. induction d as [|[k0 v0] d IH]; simpl; [tauto|].
  intros Hnd [H | H]; inversion Hnd as [|? ? Hk0 Hd]; subst.
  - inversion H; subst. now rewrite keq_refl.
  - destruct (keq k k0) eqn:E; [|auto].
    apply keq_spec in E. subst k0. exfalso. apply Hk0.
    apply in_map_iff. exists (k, v). auto.
Qed.

Lemma fold_set_NoDup (es : list (K * V)) : forall d,
  NoDup (dict_keys d) ->
  NoDup (dict_keys
           (fold_left (fun d e => dict_set keq (fst e) (snd e) d) es d)).
Proof.
  induction es as [|e es IH]; simpl; intros d H; auto using dict_set_NoDup.
Qed.

Lemma fold_set_keys (es : list (K * V)) : forall d,
  dict_keys (fold_left (fun d e => dict_set keq (fst e) (snd e) d) es d)
  = fold_left (fun seen k => if existsb (keq k) seen then seen else seen ++ [k])
              (map fst es) (dict_keys d).
Proof.
  induction es as [|e es IH]; simpl; intros d; [reflexivity|].
  now rewrite IH, dict_set_keys.
Qed.

Lemma fold_set_keys_In (es : list (K * V)) k : forall d,
  In k (dict_keys
          (fold_left (fun d e => dict_set keq (fst e) (snd e) d) es d))
  <-> In k (dict_keys d) \/ In k (map fst es).
Proof.
  induction es as [|e es IH]; simpl; intros d; [tauto|].
  rewrite IH, dict_set_keys_In. intuition.
Qed.

(** X1: a [for] loop over the dict of a display visits each key once, in
    the order of the first occurrences of the keys in the display, and
    indexing the dict with a visited key gives the value listed with it:
    [for t in tracts: print(t, tracts[t])] raises no KeyError. *)
Theorem dict_display_iteration (entries : list (K * V)) :
  NoDup (dict_keys (dict_display keq entries)) /\
  dict_keys (dict_display keq entries) = first_keys keq entries /\
  (forall k, In k (dict_keys (dict_display keq entries))
             <-> In k (map fst entries)) /\
  (forall k v, In (k, v) (dict_display keq entries) ->
               dict_get keq k (dict_display keq entries) = Some v).
Proof.
  assert (NoDup (dict_keys (dict_display keq entries))) as Hnd.
  { unfold dict_display. apply fold_set_NoDup. constructor. }
  split; [exact Hnd|].
  split; [unfold dict_display, first_keys; apply fold_set_keys|].
  split.
  - intros k. unfold dict_display. rewrite fold_set_keys_In. simpl. tauto.
  - intros k v. now apply dict_get_In_NoDup.
Qed.

(** X2: indexing the dict of a display fails exactly for the keys the
    display does not write; a key written several times holds the value of
    its last entry, and every value found was written under its key. *)
Theorem dict_display_lookup (entries : list (K * V)) :
  (forall k, dict_get keq k (dict_display keq entries) = None
             <-> ~ In k (map fst entries)) /\
  (forall es1 k v es2,
     entries = es1 ++ (k, v) :: es2 -> ~ In k (map fst es2) ->
     dict_get keq k (dict_display keq entries) = Some v) /\
  (forall k v, dict_get keq k (dict_display keq entries) = Some v ->
               In (k, v) entries).
Proof.
  split; [|split].
  - intros k. rewrite dict_get_None. unfold dict_display.
    rewrite fold_set_keys_In. simpl. tauto.
  - intros es1 k v es2 -> Hk. apply dict_display_last_wins.
    intros e He. destruct (keq k (fst e)) eqn:E; [|reflexivity].
    apply keq_spec in E. exfalso. apply Hk. subst k. now apply in_map.
  - unfold dict_display.
    assert (forall d k v,
              dict_get keq k
                (fold_left (fun d e => dict_set keq (fst e) (snd e) d)
                           entries d) = Some v ->
              dict_get keq k d = Some v \/ In (k, v) entries) as H.
    { induction entries as [|e es IH]; simpl; intros d k v Hg; [auto|].
      destruct (IH _ _ _ Hg) as [Hset | Hin]; [|auto].
      destruct (keq k (fst e)) eqn:E.
      - apply keq_spec in E. subst k.
        rewrite dict_get_set_same in Hset. inversion Hset.
        right. left. now destruct e.
      - left. now rewrite dict_get_set_other in Hset. }
    intros k v Hg. destruct (H [] k v Hg) as [Hnil | Hin];
      [discriminate | exact Hin].
Qed.
End PyDictFacts.

Lemma tuple_eqb_spec a b : tuple_eqb a b = true <-> a = b.
Proof.
  revert b. induction a as [|x a IH]; destruct b as [|y b]; simpl;
    try (split; congruence).
  rewrite andb_true_iff, Z.eqb_eq, IH. split.
  - intros [-> ->]; reflexivity.
  - intros H; inversion H; auto.
Qed.

(* ===================================================================== *)
(** * fltsupp.py: the transaction database                               *)
(* ===================================================================== *)

Lemma dict_display_iteration_witness :
  NoDup (dict_keys tracts) /\
  dict_keys tracts = first_keys tuple_eqb tracts_display /\
  (forall k, In k (dict_keys tracts) <-> In k (map fst tracts_display)) /\
  (forall k v, In (k, v) tracts -> dict_get tuple_eqb k tracts = Some v).
Proof.
  exact (dict_display_iteration tuple_eqb tuple_eqb_spec tracts_display).
Defined.

Lemma dict_display_lookup_witness :
  (forall k, dict_get tuple_eqb k tracts = None
             <-> ~ In k (map fst tracts_display)) /\
  (forall es1 k v es2,
     tracts_display = es1 ++ (k, v) :: es2 -> ~ In k (map fst es2) ->
     dict_get tuple_eqb k tracts = Some v) /\
  (forall k v, dict_get tuple_eqb k tracts = Some v ->
               In (k, v) tracts_display).
Proof.
  exact (dict_display_lookup tuple_eqb tuple_eqb_spec tracts_display).
Defined.

Example tracts_value :
  tracts = [ ([1; 2; 3]%Z, 0.5); ([1; 4; 5]%Z, 1.2); ([2; 3; 4]%Z, 0.8);
             ([1; 2; 3; 4]%Z, 1.0); ([2; 3]%Z, 1.5); ([1; 2; 4]%Z, 0.9);
             ([4; 5]%Z, 0.6); ([3; 4; 5]%Z, 0.7) ].
Proof. reflexivity. Qed.

(** C1 (as stated, refuted): the dict display holds one entry for the key
    [(1,2,3,4)]; neither the value stored under it nor the sum of the
    weights recorded for it is 1.3. *)
Lemma tracts_1234_not_summed :
  ~ ((exists w, dict_get tuple_eqb [1; 2; 3; 4]%Z tracts = Some w /\ w == 1.3)
     \/ recorded_weight [1; 2; 3; 4]%Z tracts == 1.3).
Proof.
  intros [[w [Hget Hw]] | Hsum].
  - vm_compute in Hget. injection Hget as <-. vm_compute in Hw. discriminate.
  - vm_compute in Hsum. discriminate.
Qed.

(** C1 (amended): of the two entries of the display written under the key
    [(1,2,3,4)], with weights 0.3 and 1.0, the dict keeps the later one: the
    weight recorded for that transaction is 1.0, the dict has eight keys,
    and the key stays at the place of its first entry. *)
Theorem tracts_1234_last_wins :
  entries_of tuple_eqb [1; 2; 3; 4]%Z tracts_display = [0.3; 1.0] /\
  dict_get tuple_eqb [1; 2; 3; 4]%Z tracts = Some 1.0 /\
  recorded_weight [1; 2; 3; 4]%Z tracts == 1.0 /\
  length tracts = 8%nat /\
  nth_error (dict_keys tracts) 3 = Some [1; 2; 3; 4]%Z.
Proof.
  split; [reflexivity|].
  split.
  - unfold tracts.
    change tracts_display with
      (firstn 7 tracts_display ++ ([1; 2; 3; 4]%Z, 1.0) :: skipn 8 tracts_display).
    apply (dict_display_last_wins tuple_eqb tuple_eqb_spec).
    simpl. intros e [<- | []]. reflexivity.
  - repeat split; reflexivity.
Qed.

(* ===================================================================== *)
(** * Facts about weights, item lists and supports                       *)
(* ===================================================================== *)

Lemma wsum_app l1 l2 : wsum (l1 ++ l2) == wsum l1 + wsum l2.
Proof.
  induction l1 as [|x l1 IH]; simpl.
  - lra.
  - rewrite IH. lra.
Qed.

Lemma wsum_nonneg l : Forall (fun w => 0 <= w) l -> 0 <= wsum l.
Proof.
  induction 1 as [|x l Hx _ IH]; simpl; lra.
Qed.

Lemma frequent_true t s : frequent t s = true <-> t <= s.
Proof. apply Qle_bool_iff. Qed.

Lemma frequent_false t s : frequent t s = false <-> s < t.
Proof.
  unfold frequent. split; intros H.
  - apply Qnot_le_lt. intros Hle. apply Qle_bool_iff in Hle. congruence.
  - destruct (Qle_bool t s) eqn:E; auto.
    apply Qle_bool_iff in E. lra.
Qed.



Lemma insert_item_In x y l : In y (insert_item x l) <-> y = x \/ In y l.
Proof.
  induction l as [|z l IH]; simpl.
  - intuition.
  - destruct (x <? z)%Z eqn:E1; simpl; [intuition|].
    destruct (x =? z)%Z eqn:E2; simpl.
    + apply Z.eqb_eq in E2. subst. intuition.
    + rewrite IH. intuition.
Qed.

Lemma insert_item_ascending x l : ascending l -> ascending (insert_item x l).
Proof.
  induction l as [|z l IH]; simpl; intros H.
  - auto.
  - destruct H as [Hz Hl].
    destruct (x <? z)%Z eqn:E1.
    + apply Z.ltb_lt in E1. simpl. repeat split; auto.
      constructor; auto.
      apply Forall_forall. intros y Hy.
      rewrite Forall_forall in Hz. specialize (Hz y Hy). lia.
    + destruct (x =? z)%Z eqn:E2; simpl; auto.
      apply Z.ltb_ge in E1. apply Z.eqb_neq in E2.
      split; auto.
      apply Forall_forall. intros y Hy. apply insert_item_In in Hy.
      rewrite Forall_forall in Hz. destruct Hy as [-> | Hy]; [lia | auto].
Qed.

Lemma fold_insert_In (t acc : list item) y :
  In y (fold_right insert_item acc t) <-> In y t \/ In y acc.
Proof.
  induction t as [|x t IH]; simpl.
  - intuition.
  - rewrite insert_item_In, IH. intuition.
Qed.

Lemma fold_insert_ascending (t acc : list item) :
  ascending acc -> ascending (fold_right insert_item acc t).
Proof.
  induction t as [|x t IH]; simpl; intros H; auto using insert_item_ascending.
Qed.

Lemma normalize_In t y : In y (normalize t) <-> In y t.
Proof. unfold normalize. rewrite fold_insert_In. simpl. intuition. Qed.

Lemma normalize_ascending t : ascending (normalize t).
Proof. apply fold_insert_ascending. exact I. Qed.

Lemma db_items_In db y :
  In y (db_items db) <-> exists tr, In tr db /\ In y (fst tr).
Proof.
  induction db as [|tr db IH]; simpl.
  - split; [tauto | intros [? [[] _]]].
  - rewrite fold_insert_In, IH. split.
    + intros [H | [tr' [H1 H2]]]; eauto.
    + intros [tr' [[<- | H1] H2]]; eauto.
Qed.

Lemma db_items_ascending db : ascending (db_items db).
Proof.
  induction db as [|tr db IH]; simpl; auto using fold_insert_ascending.
Qed.

Lemma ascending_NoDup l : ascending l -> NoDup l.
Proof.
  induction l as [|x l IH]; simpl; intros H; constructor.
  - destruct H as [H _]. intros Hin.
    rewrite Forall_forall in H. specialize (H x Hin). lia.
  - apply IH, H.
Qed.

Lemma ascending_snoc I j :
  ascending (I ++ [j]) <-> ascending I /\ Forall (fun x => (x < j)%Z) I.
Proof.
  induction I as [|x I IH]; simpl.
  - intuition.
  - rewrite IH, Forall_app. split.
    + intros [[H1 H2] [H3 H4]]. inversion H2; subst. repeat split; auto.
    + intros [[H1 H2] H3]. inversion H3; subst. repeat split; auto.
Qed.

Lemma larger_than_last_iff I j :
  ascending I ->
  (larger_than_last I j = true <-> Forall (fun x => (x < j)%Z) I).
Proof.
  unfold larger_than_last.
  induction I as [|x I IH]; intros HI.
  - simpl. intuition.
  - destruct I as [|y I].
    + simpl. rewrite Z.ltb_lt. split.
      * intros H. constructor; auto.
      * intros H. inversion H; auto.
    + change (last_code (x :: y :: I)) with (last_code (y :: I)).
      destruct HI as [Hx HI]. rewrite (IH HI). split.
      * intros H. constructor; auto.
        inversion H; subst. inversion Hx; subst. lia.
      * intros H. inversion H; auto.
Qed.

Lemma has_true x t : has x t = true <-> In x t.
Proof.
  unfold has. rewrite existsb_exists. split.
  - intros [y [Hy E]]. apply Z.eqb_eq in E. now subst.
  - intros H. exists x. split; auto. apply Z.eqb_refl.
Qed.

Lemma contains_true I t : contains I t = true <-> incl I t.
Proof.
  unfold contains. rewrite forallb_forall. unfold incl.
  split; intros H x Hx; apply has_true; auto.
Qed.

Lemma contains_ext I J t t' :
  (forall x, In x I <-> In x J) -> (forall x, In x t <-> In x t') ->
  contains I t = contains J t'.
Proof.
  intros HI Ht. apply eq_true_iff_eq. rewrite !contains_true. unfold incl.
  split; intros H x Hx; apply Ht || apply Ht; apply H; apply HI; auto.
Qed.

Lemma contains_app I J t : contains (I ++ J) t = contains I t && contains J t.
Proof. unfold contains. apply forallb_app. Qed.

Lemma contains_snoc I j t : contains (I ++ [j]) t = contains I t && has j t.
Proof. rewrite contains_app. simpl. now rewrite andb_true_r. Qed.

Lemma support_ext db I J :
  (forall x, In x I <-> In x J) -> support db I = support db J.
Proof.
  intros H. unfold support. f_equal. f_equal.
  apply filter_ext. intros tr. apply contains_ext; tauto.
Qed.

Lemma support_normalize db I : support db (normalize I) = support db I.
Proof. apply support_ext. intros x. apply normalize_In. Qed.

Lemma support_mk_db raw I : support (mk_db raw) I = support raw I.
Proof.
  unfold support, mk_db.
  induction raw as [|tr raw IH]; simpl; auto.
  rewrite (contains_ext I I (normalize (fst tr)) (fst tr))
    by (tauto || apply normalize_In).
  destruct (contains I (fst tr)); simpl; now rewrite IH.
Qed.

Lemma total_weight_mk_db raw : total_weight (mk_db raw) = total_weight raw.
Proof. unfold total_weight, mk_db. now rewrite map_map. Qed.

Lemma support_nil db : support db [] = total_weight db.
Proof.
  unfold support, total_weight. f_equal. f_equal.
  induction db as [|tr db IH]; [reflexivity|].
  change (tr :: filter (fun tr0 => contains [] (fst tr0)) db = tr :: db).
  now rewrite IH.
Qed.







Lemma positive_nonneg db : positive_weights db -> nonneg_weights db.
Proof.
  unfold positive_weights, nonneg_weights. intros H.
  eapply Forall_impl; [|exact H]. simpl. intros tr Htr. lra.
Qed.

Lemma nonneg_mk_db raw : nonneg_weights raw -> nonneg_weights (mk_db raw).
Proof.
  unfold nonneg_weights, mk_db. intros H. apply Forall_map.
  eapply Forall_impl; [|exact H]. auto.
Qed.

Lemma support_nonneg db I : nonneg_weights db -> 0 <= support db I.
Proof.
  intros H. unfold support. apply wsum_nonneg.
  apply Forall_map. apply Forall_forall. intros tr Htr.
  apply filter_In in Htr. destruct Htr as [Htr _].
  unfold nonneg_weights in H. rewrite Forall_forall in H. auto.
Qed.

(** Support is anti-monotone when no weight is negative. *)
Lemma support_antimono db I J :
  nonneg_weights db -> incl I J -> support db J <= support db I.
Proof.
  intros Hw Hsub. unfold support.
  induction db as [|tr db IH]; simpl.
  - lra.
  - inversion Hw as [|? ? Hw1 Hw2]; subst. specialize (IH Hw2).
    destruct (contains J (fst tr)) eqn:EJ.
    + assert (contains I (fst tr) = true) as ->.
      { apply contains_true. apply contains_true in EJ.
        eapply incl_tran; eauto. }
      simpl. lra.
    + destruct (contains I (fst tr)); simpl; lra.
Qed.

Lemma support_pos_covered db I : 0 < support db I -> covered db I.
Proof.
  unfold support, covered.
  induction db as [|tr db IH]; simpl; intros H.
  - lra.
  - destruct (contains I (fst tr)) eqn:E.
    + exists tr. auto.
    + destruct (IH H) as [tr' [H1 H2]]. exists tr'. auto.
Qed.

Lemma covered_items db I : covered db I -> incl I (db_items db).
Proof.
  intros [tr [Htr Hc]] x Hx. apply contains_true in Hc.
  apply db_items_In. exists tr. auto.
Qed.

(* ===================================================================== *)
(** * The breadth-first strategy                                         *)
(* ===================================================================== *)

Section BreadthFirst.
Variable db : database.
Variable t : Q.
Variable items : list item.



Lemma next_level_In p F :
  In p (next_level db t items F) <->
  exists q j, In q F /\ In j items /\ larger_than_last (fst q) j = true /\
              p = (fst q ++ [j], support db (fst q ++ [j])) /\
              frequent t (support db (fst q ++ [j])) = true.
Proof.
  unfold next_level, prune, count_level, extend.
  rewrite filter_In, in_map_iff. split.
  - intros [[I [<- HI]] Hf]. simpl in Hf.
    apply in_flat_map in HI. destruct HI as [q [Hq HI]].
    apply in_map_iff in HI. destruct HI as [j [<- Hj]].
    apply filter_In in Hj. destruct Hj as [Hj Hl].
    exists q, j. auto.
  - intros [q [j [Hq [Hj [Hl [-> Hf]]]]]]. split; auto.
    exists (fst q ++ [j]). split; auto.
    apply in_flat_map. exists q. split; auto.
    apply in_map_iff. exists j. split; auto.
    apply filter_In. auto.
Qed.

Lemma level_sound k : forall I s,
  In (I, s) (level db t items k) ->
  s = support db I /\ t <= s /\ ascending I /\ incl I items /\ length I = k.
Proof.
  induction k as [|k IH]; intros I s H.
  - simpl in H. destruct (frequent t (support db [])) eqn:E; simpl in H.
    + destruct H as [H | []]. inversion H; subst.
      apply frequent_true in E. repeat split; auto.
      intros x [].
    + destruct H.
  - simpl in H. apply next_level_In in H.
    destruct H as [[I0 s0] [j [Hq [Hj [Hl [Hp Hf]]]]]].
    simpl in *. inversion Hp; subst.
    destruct (IH _ _ Hq) as [_ [_ [Hasc [Hincl Hlen]]]].
    apply frequent_true in Hf. repeat split; auto.
    + apply ascending_snoc. split; auto.
      apply larger_than_last_iff; auto.
    + apply incl_app; auto. intros x [<- | []]. auto.
    + rewrite last_length. auto.
Qed.

Lemma level_complete :
  nonneg_weights db ->
  forall I, ascending I -> incl I items -> t <= support db I ->
  In (I, support db I) (level db t items (length I)).
Proof.
  intros Hw I. induction I as [|j I0 IH] using rev_ind; intros Hasc Hincl Hf.
  - simpl. apply frequent_true in Hf. rewrite Hf. simpl. auto.
  - rewrite last_length. simpl. apply next_level_In.
    apply ascending_snoc in Hasc. destruct Hasc as [Hasc Hlt].
    exists (I0, support db I0), j. simpl. repeat split.
    + apply IH; auto.
      * intros x Hx. apply Hincl. apply in_or_app. auto.
      * assert (support db (I0 ++ [j]) <= support db I0).
        { apply support_antimono; auto. apply incl_appl, incl_refl. }
        lra.
    + apply Hincl. apply in_or_app. right. simpl. auto.
    + apply larger_than_last_iff; auto.
    + apply frequent_true. auto.
Qed.

Lemma level_empty_ge k k' :
  level db t items k = [] -> (k <= k')%nat -> level db t items k' = [].
Proof.
  intros He Hle. induction Hle as [|k' Hle IH]; auto.
  simpl. rewrite IH. reflexivity.
Qed.

Lemma level_empty_above k : (length items < k)%nat -> level db t items k = [].
Proof.
  intros Hk. destruct (level db t items k) as [|[I s] F] eqn:E; auto.
  exfalso.
  destruct (level_sound k I s) as [_ [_ [Hasc [Hincl Hlen]]]].
  { rewrite E. simpl. auto. }
  pose proof (NoDup_incl_length (ascending_NoDup _ Hasc) Hincl). lia.
Qed.

(** The level loop ends by itself, on an empty level, within the bound,
    and returns the levels it went through. *)
Lemma level_loop_spec bound : forall k,
  (length items < k + bound)%nat ->
  exists out,
    level_loop db t items bound (level db t items k) = Some out /\
    forall p, In p out <-> exists k', (k <= k')%nat /\ In p (level db t items k').
Proof.
  induction bound as [|b IH]; intros k Hk.
  - assert (level db t items k = []) as E by (apply level_empty_above; lia).
    rewrite E. exists []. split; auto.
    intros p. split; [intros []|].
    intros [k' [Hle Hin]]. rewrite (level_empty_ge k k' E Hle) in Hin. auto.
  - destruct (level db t items k) as [|p0 F] eqn:E.
    + exists []. split; auto.
      intros p. split; [intros []|].
      intros [k' [Hle Hin]]. rewrite (level_empty_ge k k' E Hle) in Hin. auto.
    + destruct (IH (S k)) as [out' [Hout' Hspec]]; [lia|].
      exists ((p0 :: F) ++ out'). split.
      * cbn [level_loop]. simpl in Hout'. rewrite E in Hout'.
        rewrite Hout'. reflexivity.
      * intros p. rewrite in_app_iff, Hspec, <- E. split.
        -- intros [H | [k' [Hle H]]]; [exists k | exists k']; split; auto; lia.
        -- intros [k' [Hle H]].
           destruct (Nat.eq_dec k k') as [<- | Hne]; auto.
           right. exists k'. split; auto. lia.
Qed.
End BreadthFirst.

Lemma breadth_first_spec db t :
  exists out,
    breadth_first db t = Some out /\
    forall p, In p out <-> exists k, In p (level db t (db_items db) k).
Proof.
  destruct (level_loop_spec db t (db_items db) (S (length (db_items db))) 0)
    as [out [Hout Hspec]]; [lia|].
  exists out. split; auto.
  intros p. rewrite Hspec. split.
  - intros [k [_ H]]. eauto.
  - intros [k H]. exists k. split; auto. lia.
Qed.

Lemma breadth_first_sound db t out I s :
  breadth_first db t = Some out -> In (I, s) out ->
  s = support db I /\ t <= s /\ ascending I /\ incl I (db_items db).
Proof.
  intros Hout Hin.
  destruct (breadth_first_spec db t) as [out' [Hout' Hspec]].
  rewrite Hout in Hout'. inversion Hout'; subst out'.
  apply Hspec in Hin. destruct Hin as [k Hin].
  apply level_sound in Hin. tauto.
Qed.

Lemma breadth_first_complete db t out I :
  nonneg_weights db ->
  breadth_first db t = Some out ->
  ascending I -> incl I (db_items db) -> t <= support db I ->
  In (I, support db I) out.
Proof.
  intros Hw Hout Hasc Hincl Hf.
  destruct (breadth_first_spec db t) as [out' [Hout' Hspec]].
  rewrite Hout in Hout'. inversion Hout'; subst out'.
  apply Hspec. exists (length I). apply level_complete; auto.
Qed.

(* ===================================================================== *)
(** * Subsequences of the item list                                      *)
(* ===================================================================== *)



Lemma subseq_nil_l L : subseq [] L.
Proof. induction L; auto. Qed.

Lemma subseq_length K L : subseq K L -> (length K <= length L)%nat.
Proof. induction 1; simpl; lia. Qed.

Lemma subseq_incl K L : subseq K L -> incl K L.
Proof.
  induction 1 as [|x K L _ IH|x K L _ IH]; intros y Hy; simpl in *.
  - assumption.
  - destruct Hy as [-> | Hy]; auto.
  - auto.
Qed.

Lemma subseq_ascending K L : subseq K L -> ascending L -> ascending K.
Proof.
  induction 1 as [|x K L HKL IH|x K L _ IH]; simpl; intros HL; auto.
  - destruct HL as [Hx HL]. split; auto.
    apply Forall_forall. intros y Hy.
    rewrite Forall_forall in Hx. apply Hx. eapply subseq_incl; eauto.
  - apply IH, HL.
Qed.

Lemma ascending_incl_subseq L :
  ascending L -> forall K, ascending K -> incl K L -> subseq K L.
Proof.
  induction L as [|x L IH]; intros HL K HK Hincl.
  - destruct K as [|y K]; auto.
    exfalso. apply (Hincl y). simpl; auto.
  - destruct HL as [Hx HL]. rewrite Forall_forall in Hx.
    destruct K as [|y K]; [apply subseq_nil_l|].
    destruct HK as [Hy HK]. rewrite Forall_forall in Hy.
    assert (forall z, In z K -> In z L) as HKL.
    { intros z Hz. destruct (Hincl z) as [<- | Hz']; simpl; auto.
      exfalso. specialize (Hy _ Hz).
      destruct (Hincl y) as [<- | Hy']; simpl; auto; [lia|].
      specialize (Hx _ Hy'). lia. }
    destruct (Hincl y) as [<- | Hy']; simpl; auto.
    apply sub_skip. apply IH; auto; [simpl; split; auto; now apply Forall_forall|].
    intros z [<- | Hz]; auto.
Qed.

Lemma subseq_rev K L : subseq K L -> subseq (rev K) (rev L).
Proof.
  assert (forall A B, subseq A B -> forall x, subseq (A ++ [x]) (B ++ [x])) as Hsnoc.
  { induction 1; intros y; simpl; auto. }
  assert (forall A B, subseq A B -> forall x, subseq A (B ++ [x])) as Hskip.
  { induction 1; intros y; simpl; auto. }
  induction 1; simpl; auto.
Qed.

(* ===================================================================== *)
(** * The depth-first strategy                                           *)
(* ===================================================================== *)

Lemma filter_map_swap {A B : Type} (f : A -> B) (p : B -> bool) (l : list A) :
  filter p (map f l) = map f (filter (fun x => p (f x)) l).
Proof.
  induction l as [|x l IH]; simpl; auto.
  destruct (p (f x)); simpl; now rewrite IH.
Qed.

Lemma filter_filter_in {A : Type} (p q q' : A -> bool) (l : list A) :
  (forall x, In x l -> q' x = q x) ->
  filter q' (filter p l) = filter (fun x => p x && q x) l.
Proof.
  induction l as [|x l IH]; simpl; intros H; auto.
  destruct (p x); simpl.
  - rewrite (H x) by auto. destruct (q x); rewrite IH; auto.
  - apply IH. auto.
Qed.

Lemma existsb_eqb_filter (q : nat -> bool) (l : list nat) i :
  In i l -> existsb (Nat.eqb i) (filter q l) = q i.
Proof.
  intros Hi. apply eq_true_iff_eq. rewrite existsb_exists. split.
  - intros [x [Hx E]]. apply Nat.eqb_eq in E. subst x.
    apply filter_In in Hx. tauto.
  - intros Hq. exists i. split; [apply filter_In; auto | apply Nat.eqb_refl].
Qed.

Lemma nth_seq_filter {A B : Type} (d : A) (f : A -> bool) (g : A -> B)
  (l : list A) :
  map (fun i => g (nth i l d)) (filter (fun i => f (nth i l d)) (seq 0 (length l)))
  = map g (filter f l).
Proof.
  induction l as [|a l IH]; auto.
  cbn [length seq]. rewrite <- seq_shift. cbn [filter nth].
  rewrite filter_map_swap. cbn [nth].
  destruct (f a); cbn [map]; rewrite map_map; cbn [nth]; rewrite IH; auto.
Qed.

Section DepthFirst.
Variable db : database.
Variable t : Q.



Lemma tid_weight_cover I : tid_weight db (cover_of db I) = support db I.
Proof.
  unfold tid_weight, cover_of, support, tids, tract_at. f_equal.
  apply (nth_seq_filter ([], 0) (fun tr => contains I (fst tr)) snd db).
Qed.

Lemma cover_of_nil : cover_of db [] = tids db.
Proof.
  unfold cover_of. induction (tids db) as [|i l IH]; auto.
  change (i :: filter (fun i0 => contains [] (fst (tract_at db i0))) l = i :: l).
  now rewrite IH.
Qed.

Lemma intersect_cover I j :
  intersect (cover_of db I) (verticalList db j) = cover_of db (I ++ [j]).
Proof.
  unfold intersect, cover_of, verticalList.
  rewrite filter_filter_in
    with (q := fun i => has j (fst (tract_at db i))).
  - apply filter_ext. intros i. now rewrite contains_snoc.
  - intros i Hi. now apply existsb_eqb_filter.
Qed.

Lemma cover_nonempty I : is_empty (cover_of db I) = false <-> covered db I.
Proof.
  unfold covered, cover_of, tids, tract_at. split.
  - intros H.
    destruct (filter _ _) as [|i l] eqn:E; [discriminate|].
    assert (In i (i :: l)) as Hi by (simpl; auto).
    rewrite <- E in Hi. apply filter_In in Hi. destruct Hi as [Hi Hc].
    apply in_seq in Hi.
    exists (nth i db ([], 0)). split; auto. apply nth_In. lia.
  - intros [tr [Htr Hc]].
    destruct (In_nth db tr ([], 0) Htr) as [i [Hi Hnth]].
    destruct (filter _ _) as [|i' l] eqn:E; auto.
    exfalso.
    assert (In i []) as Hin; [|destruct Hin].
    rewrite <- E. apply filter_In. split.
    + apply in_seq. lia.
    + now rewrite Hnth.
Qed.

Lemma dfs_sound rest : forall pre I s,
  In (I, s) (dfs db t pre (cover_of db pre) rest) ->
  exists K, K <> [] /\ I = pre ++ K /\ subseq K rest /\
            s = support db I /\ t <= s /\ covered db I.
Proof.
  induction rest as [|j rest IH]; intros pre I s H; [destruct H|].
  cbn [dfs] in H. cbv zeta in H. rewrite intersect_cover in H.
  apply in_app_or in H. destruct H as [H | H].
  - destruct (is_empty (cover_of db (pre ++ [j]))) eqn:Ee; [destruct H|].
    destruct (frequent t (tid_weight db (cover_of db (pre ++ [j])))) eqn:Ef;
      [|destruct H].
    simpl in H. destruct H as [H | H].
    + inversion H; subst. exists [j]. rewrite tid_weight_cover in *.
      repeat split; auto using subseq_nil_l; try discriminate.
      * now apply frequent_true.
      * now apply cover_nonempty.
    + destruct (IH _ _ _ H) as [K [HK [HI [Hsub Hrest]]]].
      exists (j :: K). repeat split; auto; try discriminate; try tauto.
      rewrite HI, <- app_assoc. reflexivity.
  - destruct (IH _ _ _ H) as [K [HK [HI [Hsub Hrest]]]].
    exists K. repeat split; auto; tauto.
Qed.

Lemma dfs_complete :
  nonneg_weights db ->
  forall rest pre K,
    K <> [] -> subseq K rest -> covered db (pre ++ K) ->
    t <= support db (pre ++ K) ->
    In (pre ++ K, support db (pre ++ K)) (dfs db t pre (cover_of db pre) rest).
Proof.
  intros Hw rest. induction rest as [|j rest IH]; intros pre K HK Hsub Hcov Hf.
  - inversion Hsub; subst. congruence.
  - cbn [dfs]. cbv zeta. rewrite intersect_cover. apply in_or_app.
    inversion Hsub as [|x K' L' Hsub'|x K' L' Hsub']; subst.
    + left.
      assert (incl (pre ++ [j]) (pre ++ j :: K')) as Hincl.
      { intros x Hx. apply in_app_or in Hx. apply in_or_app.
        destruct Hx as [Hx | [<- | []]]; simpl; auto. }
      assert (covered db (pre ++ [j])) as Hcov'.
      { destruct Hcov as [tr [Htr Hc]]. exists tr. split; auto.
        apply contains_true. apply contains_true in Hc.
        eapply incl_tran; eauto. }
      apply cover_nonempty in Hcov'. rewrite Hcov'.
      rewrite tid_weight_cover.
      assert (t <= support db (pre ++ [j])) as Hf'.
      { pose proof (support_antimono db _ _ Hw Hincl). lra. }
      apply frequent_true in Hf'. rewrite Hf'. simpl.
      destruct K' as [|k K'']; auto.
      right.
      replace (pre ++ j :: k :: K'') with ((pre ++ [j]) ++ k :: K'')
        in * by (now rewrite <- app_assoc).
      apply IH; auto; discriminate.
    + right. apply IH; auto.
Qed.

Lemma depth_first_sound I s :
  In (I, s) (depth_first db t) ->
  s = support db I /\ t <= s /\ subseq I (db_items db) /\
  (I = [] \/ covered db I).
Proof.
  unfold depth_first. cbv zeta. rewrite <- cover_of_nil.
  rewrite tid_weight_cover.
  destruct (frequent t (support db [])) eqn:Ef; [|intros []].
  intros [H | H].
  - inversion H; subst. apply frequent_true in Ef.
    repeat split; auto using subseq_nil_l.
  - apply dfs_sound in H.
    destruct H as [K [HK [HI [Hsub Hrest]]]]. simpl in HI. subst K.
    tauto.
Qed.

Lemma depth_first_complete I :
  nonneg_weights db ->
  subseq I (db_items db) -> t <= support db I ->
  I = [] \/ covered db I ->
  In (I, support db I) (depth_first db t).
Proof.
  intros Hw Hsub Hf Hcov.
  unfold depth_first. cbv zeta. rewrite <- cover_of_nil.
  rewrite tid_weight_cover.
  assert (t <= support db []) as Hroot.
  { pose proof (support_antimono db [] I Hw (incl_nil_l _)). lra. }
  apply frequent_true in Hroot. rewrite Hroot.
  destruct I as [|x I]; [simpl; auto|].
  right.
  destruct Hcov as [Hcov | Hcov]; [discriminate|].
  apply (dfs_complete Hw (db_items db) [] (x :: I)); auto; discriminate.
Qed.
End DepthFirst.

(* ===================================================================== *)
(** * The prefix tree and its conditional pattern bases                  *)
(* ===================================================================== *)

Lemma support_app D1 D2 J : support (D1 ++ D2) J == support D1 J + support D2 J.
Proof. unfold support. rewrite filter_app, map_app. apply wsum_app. Qed.

Lemma support_cons p w D J :
  support ((p, w) :: D) J == (if contains J p then w else 0) + support D J.
Proof.
  unfold support. simpl. destruct (contains J p); simpl; lra.
Qed.



Lemma merge_entry_app_l p w A D D' :
  merge_entry p w D D' -> merge_entry p w (A ++ D) (A ++ D').
Proof.
  intros H. destruct H as [D1 D2 | D1 c D2]; rewrite !app_assoc; constructor.
Qed.

Lemma merge_entry_app_r p w B D D' :
  merge_entry p w D D' -> merge_entry p w (D ++ B) (D' ++ B).
Proof.
  intros H. destruct H as [D1 D2 | D1 c D2]; rewrite <- !app_assoc;
    rewrite <- ?app_comm_cons; constructor.
Qed.

Lemma merge_entry_support p w D D' J :
  merge_entry p w D D' ->
  support D' J == support D J + (if contains J p then w else 0).
Proof.
  intros H. destruct H as [D1 D2 | D1 c D2];
    rewrite !support_app, ?support_cons; destruct (contains J p); lra.
Qed.

Lemma merge_entry_paths p w D D' q :
  merge_entry p w D D' ->
  (In q (map fst D') <-> In q (map fst D) \/ q = p).
Proof.
  intros H. destruct H as [D1 D2 | D1 c D2];
    rewrite !map_app; cbn [map fst]; rewrite !in_app_iff; simpl;
    intuition congruence.
Qed.

Lemma merge_entry_nonneg p w D D' :
  merge_entry p w D D' -> 0 <= w -> nonneg_weights D -> nonneg_weights D'.
Proof.
  unfold nonneg_weights. intros H Hw HD.
  destruct H as [D1 D2 | D1 c D2];
    apply Forall_app in HD; destruct HD as [H1 H2]; apply Forall_app; split;
    try assumption.
  - constructor; auto.
  - inversion H2; subst. constructor; auto. simpl in *. lra.
Qed.

Section CondBase.
Variable i : item.

Lemma prefix_before_cons x tr q :
  prefix_before i (x :: tr) = Some q ->
  (x = i /\ q = []) \/
  (x <> i /\ exists q', prefix_before i tr = Some q' /\ q = x :: q').
Proof.
  simpl. destruct (x =? i)%Z eqn:E.
  - apply Z.eqb_eq in E. intros H. inversion H. auto.
  - apply Z.eqb_neq in E. destruct (prefix_before i tr) as [q'|]; simpl;
      intros H; inversion H. right. eauto.
Qed.

Lemma cond_base_chain tr w : forall path,
  cond_base i path (chain tr w)
  = match prefix_before i tr with
    | Some q => [(rev path ++ q, w)]
    | None => []
    end.
Proof.
  induction tr as [|x tr IH]; intros path; simpl; auto.
  rewrite app_nil_r.
  destruct (x =? i)%Z; simpl.
  - now rewrite app_nil_r.
  - rewrite IH. destruct (prefix_before i tr); simpl; auto.
    now rewrite <- app_assoc.
Qed.

Lemma cond_base_insert T : forall tr w path,
  match prefix_before i tr with
  | Some q =>
      merge_entry (rev path ++ q) w
        (cond_base i path T) (cond_base i path (tree_insert T tr w))
  | None => cond_base i path (tree_insert T tr w) = cond_base i path T
  end.
Proof.
  induction T as [|j c ch IHch sib IHsib]; intros tr w path.
  - destruct tr as [|x tr]; [reflexivity|].
    cbn [tree_insert]. rewrite cond_base_chain.
    destruct (prefix_before i (x :: tr)); auto.
    apply (me_new _ _ [] []).
  - destruct tr as [|x tr]; [reflexivity|].
    cbn [tree_insert prefix_before].
    destruct (x =? j)%Z eqn:Exj.
    + apply Z.eqb_eq in Exj. subst x. cbn [cond_base].
      destruct (j =? i)%Z eqn:Eji.
      * rewrite app_nil_r. apply (me_add _ _ [] c).
      * specialize (IHch tr w (j :: path)).
        destruct (prefix_before i tr) as [q|]; cbn [option_map].
        -- apply merge_entry_app_r.
           cbn [rev] in IHch. now rewrite <- app_assoc in IHch.
        -- now rewrite IHch.
    + cbn [cond_base]. specialize (IHsib (x :: tr) w path).
      cbn [prefix_before] in IHsib.
      destruct (x =? i)%Z.
      * now apply merge_entry_app_l.
      * destruct (prefix_before i tr) as [q|]; cbn [option_map] in *.
        -- now apply merge_entry_app_l.
        -- now rewrite IHsib.
Qed.

(** The conditional pattern base read from the tree of a database agrees
    with the projection of the database on the item. *)
Lemma cond_base_fold_support J : forall (D : database) (T : ptree),
  support (cond_base i []
             (fold_left (fun T tr => tree_insert T (fst tr) (snd tr)) D T)) J
  == support (cond_base i [] T) J + support (project i D) J.
Proof.
  induction D as [|[tr w] D IH]; intros T; cbn [fold_left fst snd].
  - unfold project, support. simpl. lra.
  - rewrite IH. pose proof (cond_base_insert T tr w []) as H.
    unfold project. cbn [flat_map fst snd].
    destruct (prefix_before i tr) as [q|].
    + rewrite (merge_entry_support _ _ _ _ J H), support_app.
      cbn [rev app]. rewrite support_cons.
      change (support [] J) with 0. lra.
    + rewrite H. simpl. lra.
Qed.

Lemma cond_base_fold_paths q : forall (D : database) (T : ptree),
  In q (map fst (cond_base i []
          (fold_left (fun T tr => tree_insert T (fst tr) (snd tr)) D T)))
  <-> In q (map fst (cond_base i [] T)) \/ In q (map fst (project i D)).
Proof.
  induction D as [|[tr w] D IH]; intros T; cbn [fold_left fst snd].
  - simpl. tauto.
  - rewrite IH. pose proof (cond_base_insert T tr w []) as H.
    unfold project. cbn [flat_map fst snd].
    destruct (prefix_before i tr) as [p|].
    + rewrite (merge_entry_paths _ _ _ _ q H), map_app, in_app_iff.
      simpl. intuition.
    + rewrite H. simpl. tauto.
Qed.

Lemma cond_base_fold_nonneg : forall (D : database) (T : ptree),
  nonneg_weights D -> nonneg_weights (cond_base i [] T) ->
  nonneg_weights (cond_base i []
    (fold_left (fun T tr => tree_insert T (fst tr) (snd tr)) D T)).
Proof.
  induction D as [|[tr w] D IH]; intros T HD HT; cbn [fold_left fst snd]; auto.
  inversion HD; subst. apply IH; auto.
  pose proof (cond_base_insert T tr w []) as H.
  destruct (prefix_before i tr) as [p|].
  - eapply merge_entry_nonneg; eauto.
  - now rewrite H.
Qed.

Lemma base_support D J :
  support (cond_base i [] (build D)) J == support (project i D) J.
Proof.
  unfold build. rewrite cond_base_fold_support.
  unfold support at 1. simpl. lra.
Qed.

Lemma base_paths D q :
  In q (map fst (cond_base i [] (build D))) <->
  exists tr, In tr D /\ prefix_before i (fst tr) = Some q.
Proof.
  unfold build. rewrite cond_base_fold_paths. simpl.
  unfold project. rewrite in_map_iff. split.
  - intros [[] | [[p w] [<- H]]].
    apply in_flat_map in H. destruct H as [tr [Htr H]].
    exists tr. split; auto.
    destruct (prefix_before i (fst tr)); simpl in H; [|destruct H].
    destruct H as [H | []]. inversion H. reflexivity.
  - intros [tr [Htr H]]. right. exists (q, snd tr). split; auto.
    apply in_flat_map. exists tr. split; auto. rewrite H. simpl. auto.
Qed.

Lemma base_nonneg D :
  nonneg_weights D -> nonneg_weights (cond_base i [] (build D)).
Proof.
  intros H. unfold build. apply cond_base_fold_nonneg; auto. constructor.
Qed.

(** In an ascending transaction the items before [i] are the items
    smaller than [i]. *)
Lemma prefix_before_None tr : prefix_before i tr = None <-> ~ In i tr.
Proof.
  induction tr as [|x tr IH]; simpl.
  - tauto.
  - destruct (x =? i)%Z eqn:E.
    + apply Z.eqb_eq in E. split; [discriminate | tauto].
    + apply Z.eqb_neq in E.
      destruct (prefix_before i tr); simpl.
      * split; [discriminate|]. intros H. exfalso. apply H. right.
        apply Decidable.not_not; [unfold Decidable.decidable; tauto|].
        intros Hn. apply IH in Hn. discriminate.
      * split; auto. intros _ [H | H]; [congruence | tauto].
Qed.

Lemma prefix_before_spec tr : forall q,
  ascending tr -> prefix_before i tr = Some q ->
  In i tr /\ ascending q /\ forall x, In x q <-> In x tr /\ (x < i)%Z.
Proof.
  induction tr as [|y tr IH]; intros q Hasc H; [discriminate|].
  destruct Hasc as [Hy Hasc]. rewrite Forall_forall in Hy.
  apply prefix_before_cons in H.
  destruct H as [[-> ->] | [Hne [q' [Hq' ->]]]].
  - split; [simpl; auto|]. split; [exact I|].
    intros x. simpl. split; [tauto|].
    intros [[<- | Hx] Hlt]; [lia|]. specialize (Hy _ Hx). lia.
  - destruct (IH q' Hasc Hq') as [Hin [Hq Hspec]].
    split; [simpl; auto|]. split.
    + simpl. split; auto.
      apply Forall_forall. intros x Hx. apply Hy. now apply Hspec.
    + intros x. simpl. split.
      * intros [<- | Hx]; [|apply Hspec in Hx; tauto].
        specialize (Hy _ Hin). split; auto.
      * intros [[<- | Hx] Hlt]; auto. right. apply Hspec. auto.
Qed.



Lemma project_support D J :
  all_ascending D -> Forall (fun x => (x < i)%Z) J ->
  support (project i D) J = support D (J ++ [i]).
Proof.
  intros HD HJ. unfold support, project. f_equal.
  induction D as [|[tr w] D IH]; auto.
  assert (all_ascending D) as HD' by (intros tr' H'; apply HD; now right).
  specialize (IH HD'). cbn [flat_map fst snd filter].
  rewrite contains_snoc.
  destruct (prefix_before i tr) as [q|] eqn:Eq.
  - destruct (prefix_before_spec tr q (HD (tr, w) (or_introl eq_refl)) Eq)
      as [Hin [_ Hspec]].
    apply has_true in Hin. rewrite Hin, andb_true_r.
    cbn [app filter fst].
    assert (contains J q = contains J tr) as ->.
    { apply eq_true_iff_eq. rewrite !contains_true. unfold incl.
      rewrite Forall_forall in HJ.
      split; intros H x Hx; specialize (H x Hx).
      - apply Hspec in H. tauto.
      - apply Hspec. auto. }
    destruct (contains J tr); cbn [map snd]; now rewrite IH.
  - apply prefix_before_None in Eq.
    assert (has i tr = false) as ->.
    { destruct (has i tr) eqn:E; auto. apply has_true in E. tauto. }
    rewrite andb_false_r. cbn [app]. apply IH.
Qed.

Lemma base_ascending D :
  all_ascending D -> all_ascending (cond_base i [] (build D)).
Proof.
  intros HD [q c] Hin. simpl.
  assert (In q (map fst (cond_base i [] (build D)))) as Hq.
  { apply in_map_iff. exists (q, c). auto. }
  apply base_paths in Hq. destruct Hq as [tr [Htr Hp]].
  apply (prefix_before_spec (fst tr) q (HD tr Htr) Hp).
Qed.

Lemma base_total D :
  all_ascending D ->
  wsum (map snd (cond_base i [] (build D))) == support D [i].
Proof.
  intros HD.
  change (wsum (map snd (cond_base i [] (build D))))
    with (total_weight (cond_base i [] (build D))).
  rewrite <- support_nil, base_support, (project_support D []); auto.
  reflexivity.
Qed.
End CondBase.

(* ===================================================================== *)
(** * The tree-projection strategy                                       *)
(* ===================================================================== *)



Lemma descending_cons i rest :
  descending (i :: rest) ->
  descending rest /\ forall x, In x rest -> (x < i)%Z.
Proof.
  unfold descending. simpl. intros H. apply ascending_snoc in H.
  destruct H as [H1 H2]. split; auto.
  intros x Hx. rewrite Forall_forall in H2. apply H2. now apply in_rev in Hx.
Qed.

Lemma covered_base i D K :
  all_ascending D -> Forall (fun x => (x < i)%Z) K ->
  (covered (cond_base i [] (build D)) K <-> covered D (K ++ [i])).
Proof.
  intros HD HK. rewrite Forall_forall in HK. unfold covered. split.
  - intros [[q c] [Hin Hc]]. simpl in Hc.
    assert (In q (map fst (cond_base i [] (build D)))) as Hq.
    { apply in_map_iff. exists (q, c). auto. }
    apply base_paths in Hq. destruct Hq as [tr [Htr Hp]].
    destruct (prefix_before_spec i _ _ (HD tr Htr) Hp) as [Hi [_ Hspec]].
    exists tr. split; auto.
    rewrite contains_snoc. apply andb_true_iff. split; [|now apply has_true].
    apply contains_true. apply contains_true in Hc.
    intros x Hx. apply Hspec. auto.
  - intros [tr [Htr Hc]]. rewrite contains_snoc in Hc.
    apply andb_true_iff in Hc. destruct Hc as [Hc Hi].
    apply has_true in Hi. apply contains_true in Hc.
    destruct (prefix_before i (fst tr)) as [q|] eqn:Eq.
    + assert (In q (map fst (cond_base i [] (build D)))) as Hq.
      { apply base_paths. eauto. }
      apply in_map_iff in Hq. destruct Hq as [[q' c] [Hq' Hin]].
      simpl in Hq'. subst q'.
      exists (q, c). split; auto. simpl.
      destruct (prefix_before_spec i _ _ (HD tr Htr) Eq) as [_ [_ Hspec]].
      apply contains_true. intros x Hx. apply Hspec. auto.
    + apply prefix_before_None in Eq. tauto.
Qed.

Section TreeProjection.
Variable t : Q.

Lemma fpg_sound items : forall suf D I s,
  descending items -> all_ascending D ->
  In (I, s) (fpg t suf (build D) items) ->
  exists K, K <> [] /\ I = K ++ suf /\ subseq (rev K) items /\
            s == support D K /\ t <= s /\ covered D K.
Proof.
  induction items as [|i rest IH]; intros suf D I s Hdesc HD H;
    [destruct H|].
  apply descending_cons in Hdesc. destruct Hdesc as [Hdesc Hlt].
  cbn [fpg] in H. cbv zeta in H.
  apply in_app_or in H. destruct H as [H | H].
  - destruct (is_empty (cond_base i [] (build D))) eqn:Ee; [destruct H|].
    destruct (frequent t (wsum (map snd (cond_base i [] (build D))))) eqn:Ef;
      [|destruct H].
    apply frequent_true in Ef.
    simpl in H. destruct H as [H | H].
    + inversion H; subst. exists [i].
      split; [discriminate|]. split; [reflexivity|].
      split; [simpl; constructor; apply subseq_nil_l|].
      split; [now apply base_total|]. split; auto.
      apply (covered_base i D []); auto.
      destruct (cond_base i [] (build D)) as [|e l]; [discriminate|].
      exists e. simpl. auto.
    + apply IH in H; auto using base_ascending.
      destruct H as [K [HK [HI [Hsub [Hs [Hf Hcov]]]]]].
      assert (Forall (fun x => (x < i)%Z) K) as HKlt.
      { apply Forall_forall. intros x Hx. apply Hlt.
        eapply subseq_incl; eauto. now apply in_rev in Hx. }
      exists (K ++ [i]).
      split; [intros E; apply app_eq_nil in E; destruct E; discriminate|].
      split; [now rewrite <- app_assoc|].
      split; [rewrite rev_app_distr; simpl; now constructor|].
      split; [|split; auto].
      * rewrite Hs, base_support, project_support; auto. reflexivity.
      * now apply covered_base.
  - apply IH in H; auto.
    destruct H as [K [HK [HI [Hsub Hrest]]]].
    exists K. repeat split; auto; tauto.
Qed.

Lemma fpg_complete items : forall suf D K,
  descending items -> all_ascending D -> nonneg_weights D ->
  K <> [] -> subseq (rev K) items -> covered D K -> t <= support D K ->
  exists s, In (K ++ suf, s) (fpg t suf (build D) items) /\ s == support D K.
Proof.
  induction items as [|i rest IH]; intros suf D K Hdesc HD Hw HK Hsub Hcov Hf.
  - inversion Hsub as [E| |]. destruct K; [congruence|].
    simpl in E. symmetry in E. apply app_eq_nil in E. destruct E; discriminate.
  - apply descending_cons in Hdesc. destruct Hdesc as [Hdesc Hlt].
    cbn [fpg]. cbv zeta.
    inversion Hsub as [|x R L HsubR E1 E2|x R L HsubR E1 E2]; subst.
    + assert (K = rev R ++ [i]) as EK.
      { rewrite <- (rev_involutive K), <- E1. reflexivity. }
      assert (Forall (fun x => (x < i)%Z) (rev R)) as HRlt.
      { apply Forall_forall. intros x Hx. apply Hlt.
        eapply subseq_incl; eauto. now apply in_rev. }
      subst K.
      assert (covered D ([] ++ [i])) as Hcov_i.
      { destruct Hcov as [tr [Htr Hc]]. exists tr. split; auto.
        rewrite contains_snoc in Hc. apply andb_true_iff in Hc.
        simpl. unfold contains. simpl. now rewrite (proj2 Hc). }
      apply (covered_base i D []) in Hcov_i; auto.
      assert (is_empty (cond_base i [] (build D)) = false) as ->.
      { destruct Hcov_i as [e [He _]].
        destruct (cond_base i [] (build D)); [destruct He | reflexivity]. }
      pose proof (base_total i D HD) as Htot.
      assert (support D (rev R ++ [i]) <= support D [i]) as Hmono.
      { apply support_antimono; auto. apply incl_appr, incl_refl. }
      assert (frequent t (wsum (map snd (cond_base i [] (build D)))) = true)
        as ->.
      { apply frequent_true. lra. }
      cbn [negb andb].
      destruct R as [|r R'].
      * exists (wsum (map snd (cond_base i [] (build D)))). split; auto.
        simpl. auto.
      * destruct (IH (i :: suf) (cond_base i [] (build D)) (rev (r :: R')))
          as [s [Hin Hs]]; auto using base_ascending, base_nonneg.
        -- intros E. apply (f_equal (@length Z)) in E.
           rewrite length_rev in E. discriminate.
        -- now rewrite rev_involutive.
        -- now apply covered_base.
        -- rewrite base_support, project_support; auto.
        -- exists s. split.
           ++ apply in_or_app. left. right. now rewrite <- app_assoc.
           ++ rewrite Hs, base_support, project_support; auto. reflexivity.
    + destruct (IH suf D K) as [s [Hin Hs]]; auto.
      exists s. split; auto. apply in_or_app. auto.
Qed.

Lemma tree_projection_sound db I s :
  all_ascending db ->
  In (I, s) (tree_projection db t) ->
  s == support db I /\ t <= s /\ subseq I (db_items db) /\
  (I = [] \/ covered db I).
Proof.
  intros HD. unfold tree_projection. cbv zeta. rewrite <- support_nil.
  destruct (frequent t (support db [])) eqn:Ef; [|intros []].
  apply frequent_true in Ef.
  intros [H | H].
  - inversion H; subst.
    split; [reflexivity|]. repeat split; auto using subseq_nil_l.
  - apply fpg_sound in H; auto.
    + destruct H as [K [HK [HI [Hsub [Hs [Hf Hcov]]]]]].
      rewrite app_nil_r in HI. subst K.
      apply subseq_rev in Hsub. rewrite !rev_involutive in Hsub. tauto.
    + unfold descending. rewrite rev_involutive. apply db_items_ascending.
Qed.

Lemma tree_projection_complete db I :
  all_ascending db -> nonneg_weights db ->
  subseq I (db_items db) -> t <= support db I ->
  I = [] \/ covered db I ->
  exists s, In (I, s) (tree_projection db t) /\ s == support db I.
Proof.
  intros HD Hw Hsub Hf Hcov.
  unfold tree_projection. cbv zeta. rewrite <- support_nil.
  assert (t <= support db []) as Hroot.
  { pose proof (support_antimono db [] I Hw (incl_nil_l _)). lra. }
  apply frequent_true in Hroot. rewrite Hroot.
  destruct I as [|x I].
  - exists (support db []). split; [simpl; auto | reflexivity].
  - destruct Hcov as [Hcov | Hcov]; [discriminate|].
    destruct (fpg_complete (rev (db_items db)) [] db (x :: I))
      as [s [Hin Hs]]; auto.
    + unfold descending. rewrite rev_involutive. apply db_items_ascending.
    + now apply subseq_rev.
    + exists s. split; auto. right. now rewrite app_nil_r in Hin.
Qed.
End TreeProjection.

(* ===================================================================== *)
(** * The strategies against the definition of a frequent itemset        *)
(* ===================================================================== *)

Lemma mk_db_ascending raw : all_ascending (mk_db raw).
Proof.
  intros tr H. unfold mk_db in H. apply in_map_iff in H.
  destruct H as [tr0 [<- _]]. simpl. apply normalize_ascending.
Qed.

Lemma search_total S db t : exists out, search S db t = Some out.
Proof.
  destruct S; simpl; eauto.
  destruct (breadth_first_spec db t) as [out [H _]]. eauto.
Qed.

(** Every strategy emits only itemsets of the database, each with its
    weighted support, which reaches the threshold. *)
Lemma search_sound S db t out I s :
  all_ascending db -> search S db t = Some out -> In (I, s) out ->
  s == support db I /\ t <= s /\ ascending I /\ incl I (db_items db).
Proof.
  intros HD Hs Hin. destruct S; simpl in Hs.
  - destruct (breadth_first_sound db t out I s Hs Hin) as [-> H].
    split; [reflexivity | tauto].
  - inversion Hs; subst out.
    destruct (depth_first_sound db t I s Hin) as [-> [Hf [Hsub _]]].
    split; [reflexivity|]. split; auto.
    split; [eapply subseq_ascending; eauto using db_items_ascending|].
    now apply subseq_incl.
  - inversion Hs; subst out.
    destruct (tree_projection_sound t db I s HD Hin) as [Heq [Hf [Hsub _]]].
    split; auto. split; auto.
    split; [eapply subseq_ascending; eauto using db_items_ascending|].
    now apply subseq_incl.
Qed.


(** Every strategy emits every itemset that reaches the threshold and that
    some transaction contains. *)
Lemma search_complete S db t out I :
  all_ascending db -> nonneg_weights db ->
  search S db t = Some out ->
  ascending I -> incl I (db_items db) -> t <= support db I ->
  I = [] \/ covered db I ->
  exists s, In (I, s) out /\ s == support db I.
Proof.
  intros HD Hw Hs Hasc Hincl Hf Hcov.
  assert (subseq I (db_items db)) as Hsub
    by (apply ascending_incl_subseq; auto using db_items_ascending).
  destruct S; simpl in Hs.
  - exists (support db I). split; [|reflexivity].
    eapply breadth_first_complete; eauto.
  - inversion Hs; subst out. exists (support db I). split; [|reflexivity].
    now apply depth_first_complete.
  - inversion Hs; subst out. now apply tree_projection_complete.
Qed.

Lemma report_In zmin out p :
  In p (report zmin out) <-> In p out /\ (zmin <= Z.of_nat (length (fst p)))%Z.
Proof. unfold report. rewrite filter_In, Z.leb_le. tauto. Qed.

Lemma mine_abs_Patterns S raw t zmin out :
  mine_abs S raw t zmin = Patterns out ->
  raw <> [] /\
  exists found, search S (mk_db raw) t = Some found /\ out = report zmin found.
Proof.
  unfold mine_abs. destruct raw as [|tr raw]; [discriminate|].
  destruct (search S (mk_db (tr :: raw)) t) as [found|]; [|discriminate].
  intros H. inversion H. split; [discriminate | eauto].
Qed.

(** A mining call on a database with at least one transaction returns
    patterns: the level loop of the breadth-first strategy ends within its
    bound. *)
Lemma mine_abs_total S raw t zmin :
  raw <> [] -> exists out, mine_abs S raw t zmin = Patterns out.
Proof.
  intros Hraw. unfold mine_abs. destruct raw as [|tr raw]; [congruence|].
  destruct (search_total S (mk_db (tr :: raw)) t) as [found ->]. eauto.
Qed.

Lemma mine_finishes S raw supp zmin : mine S raw supp zmin <> Unfinished.
Proof.
  unfold mine. destruct raw as [|tr raw]; [discriminate|].
  destruct (mine_abs_total S (tr :: raw)
              (resolve_threshold supp (total_weight (mk_db (tr :: raw)))) zmin)
    as [out ->]; discriminate.
Qed.

Lemma positive_total raw :
  raw <> [] -> positive_weights raw -> 0 < total_weight raw.
Proof.
  unfold total_weight, positive_weights. intros Hraw H.
  destruct raw as [|tr raw]; [congruence|].
  inversion H as [|? ? Htr H']; subst.
  simpl. assert (0 <= wsum (map snd raw)); [|lra].
  apply wsum_nonneg, Forall_map.
  eapply Forall_impl; [|exact H']. simpl. intros. lra.
Qed.

Lemma positive_mk_db raw : positive_weights raw -> nonneg_weights (mk_db raw).
Proof. intros H. now apply nonneg_mk_db, positive_nonneg. Qed.



(** With a positive threshold the output of a strategy is the set of the
    frequent itemsets of the required size. *)
Lemma mine_abs_spec S raw t zmin out :
  positive_weights raw -> 0 < t ->
  mine_abs S raw t zmin = Patterns out ->
  forall I s,
    has_pattern out I s <->
    ascending I /\ (zmin <= Z.of_nat (length I))%Z /\
    t <= support (mk_db raw) I /\ s == support (mk_db raw) I.
Proof.
  intros Hw Ht Hm I s.
  apply mine_abs_Patterns in Hm. destruct Hm as [_ [found [Hs ->]]].
  pose proof (mk_db_ascending raw) as HD.
  split.
  - intros [s' [Hin Heq]]. apply report_In in Hin. destruct Hin as [Hin Hz].
    destruct (search_sound _ _ _ _ _ _ HD Hs Hin) as [Hs' [Hf [Hasc _]]].
    simpl in Hz. repeat split; auto; lra.
  - intros [Hasc [Hz [Hf Heq]]].
    assert (covered (mk_db raw) I) as Hcov by (apply support_pos_covered; lra).
    destruct (search_complete S _ t found I HD (positive_mk_db _ Hw) Hs Hasc)
      as [s' [Hin Hs']]; auto using covered_items.
    exists s'. split; [|lra]. apply report_In. auto.
Qed.

(* ===================================================================== *)
(** * The mining calls of fltsupp.py                                     *)
(* ===================================================================== *)

Lemma mine_Patterns S raw supp zmin out :
  mine S raw supp zmin = Patterns out ->
  raw <> [] /\
  exists found,
    search S (mk_db raw) (resolve_threshold supp (total_weight (mk_db raw)))
      = Some found /\ out = report zmin found.
Proof. apply mine_abs_Patterns. Qed.

Lemma tracts_positive : positive_weights tracts.
Proof. repeat constructor. Qed.

(** The patterns [apriori(tracts, supp=-1.6, zmin=2)] returns, supports in
    lowest terms. *)
Example apriori_tracts :
  canon_result (apriori tracts (-1.6) 2)
  = canon_result
      (Patterns [ ([1; 2]%Z, 2.4); ([1; 4]%Z, 3.1); ([2; 3]%Z, 3.8);
                  ([2; 4]%Z, 2.7); ([3; 4]%Z, 2.5); ([4; 5]%Z, 2.5);
                  ([1; 2; 4]%Z, 1.9); ([2; 3; 4]%Z, 1.8) ]).
Proof. vm_compute. reflexivity. Qed.

(** The same call through the depth-first and the tree strategies: the
    same patterns in another order. *)
Example eclat_tracts :
  canon_result (eclat tracts (-1.6) 2)
  = canon_result
      (Patterns [ ([1; 2]%Z, 2.4); ([1; 2; 4]%Z, 1.9); ([1; 4]%Z, 3.1);
                  ([2; 3]%Z, 3.8); ([2; 3; 4]%Z, 1.8); ([2; 4]%Z, 2.7);
                  ([3; 4]%Z, 2.5); ([4; 5]%Z, 2.5) ]).
Proof. vm_compute. reflexivity. Qed.

Example fpgrowth_tracts :
  canon_result (fpgrowth tracts (-1.6) 2)
  = canon_result
      (Patterns [ ([4; 5]%Z, 2.5); ([3; 4]%Z, 2.5); ([2; 3; 4]%Z, 1.8);
                  ([2; 4]%Z, 2.7); ([1; 2; 4]%Z, 1.9); ([1; 4]%Z, 3.1);
                  ([2; 3]%Z, 3.8); ([1; 2]%Z, 2.4) ]).
Proof. vm_compute. reflexivity. Qed.

(** C2 (as stated, refuted): whichever strategy mines [tracts] with
    absolute support 1.6 and minimum size 2, the itemset {2,3} is not
    reported with support 4.1. *)
Lemma pair_2_3_support_is_not_4_1 :
  ~ (exists S out s,
       mine S tracts (-1.6) 2 = Patterns out /\
       In ([2; 3]%Z, s) out /\ s == 4.1).
Proof.
  intros [S [out [s [Hm [Hin Hs]]]]].
  apply mine_Patterns in Hm. destruct Hm as [_ [found [Hf ->]]].
  apply report_In in Hin. destruct Hin as [Hin _].
  destruct (search_sound _ _ _ _ _ _ (mk_db_ascending tracts) Hf Hin)
    as [Heq _].
  rewrite Hs in Heq. vm_compute in Heq. discriminate.
Qed.

(** C2 (amended): mined with absolute minimum support 1.6 and minimum
    size 2, by any strategy, [tracts] yields the itemset {2,3} with weighted
    support 0.5 + 0.8 + 1.0 + 1.5 = 3.8 >= 1.6, and every itemset of two or
    more items whose weighted support is at least 1.6 is returned. *)
Theorem tracts_frequent_pairs S :
  exists out,
    mine S tracts (-1.6) 2 = Patterns out /\
    has_pattern out [2; 3]%Z 3.8 /\
    3.8 == 0.5 + 0.8 + 1.0 + 1.5 /\ 1.6 <= 3.8 /\
    forall I, ascending I -> (2 <= length I)%nat ->
              1.6 <= support (mk_db tracts) I ->
              has_pattern out I (support (mk_db tracts) I).
Proof.
  destruct (mine_abs_total S tracts
              (resolve_threshold (-1.6) (total_weight (mk_db tracts))) 2)
    as [out Hout]; [discriminate|].
  exists out. split; [exact Hout|].
  assert (forall I, ascending I -> (2 <= length I)%nat ->
            1.6 <= support (mk_db tracts) I ->
            has_pattern out I (support (mk_db tracts) I)) as Hall.
  { intros I Hasc Hlen Hf.
    apply (mine_abs_spec S tracts
             (resolve_threshold (-1.6) (total_weight (mk_db tracts)))
             2 out tracts_positive); auto.
    - reflexivity.
    - repeat split; auto; try reflexivity. lia. }
  split; [|split; [reflexivity | split; [discriminate | exact Hall]]].
  destruct (Hall [2; 3]%Z) as [s [Hin Hs]].
  - simpl. repeat constructor.
  - simpl. lia.
  - vm_compute. discriminate.
  - exists s. split; auto. rewrite Hs. vm_compute. reflexivity.
Qed.

Lemma mine_sound S raw supp zmin out I s :
  mine S raw supp zmin = Patterns out -> In (I, s) out ->
  s == support (mk_db raw) I /\
  resolve_threshold supp (total_weight (mk_db raw)) <= s.
Proof.
  intros Hm Hin. apply mine_Patterns in Hm.
  destruct Hm as [_ [found [Hf ->]]].
  apply report_In in Hin. destruct Hin as [Hin _].
  destruct (search_sound _ _ _ _ _ _ (mk_db_ascending raw) Hf Hin)
    as [Heq [Ht _]]. auto.
Qed.





(* ===================================================================== *)
(** * The arithmetic of the weights                                      *)
(* ===================================================================== *)

(** Run on exact rationals, the engine of module [Engine] is the engine
    the definitions of Part I give. *)
Lemma exact_resolve_threshold supp total :
  Engine.resolve_threshold Engine.exact supp total
  = resolve_threshold supp total.
Proof.
  unfold Engine.resolve_threshold, resolve_threshold. simpl.
  destruct (Qlt_le_dec supp 0); reflexivity.
Qed.

Lemma exact_chain t w : as_ptree (Engine.chain t w) = chain t w.
Proof. induction t as [|x t IH]; simpl; congruence. Qed.

Lemma exact_tree_insert T : forall t w,
  as_ptree (Engine.tree_insert Engine.exact T t w)
  = tree_insert (as_ptree T) t w.
Proof.
  induction T as [|j c ch IHch sib IHsib]; intros [|x t] w;
    try reflexivity.
  - apply (exact_chain (x :: t) w).
  - simpl. destruct (x =? j)%Z; simpl; [now rewrite IHch | now rewrite IHsib].
Qed.

Lemma exact_build db : as_ptree (Engine.build Engine.exact db) = build db.
Proof.
  unfold Engine.build, build.
  change Leaf with (as_ptree Engine.Leaf).
  generalize (@Engine.Leaf Q).
  induction db as [|tr db IH]; intros T; simpl; [reflexivity|].
  now rewrite IH, exact_tree_insert.
Qed.

Lemma exact_cond_base i T : forall path,
  Engine.cond_base i path T = cond_base i path (as_ptree T).
Proof.
  induction T as [|j c ch IHch sib IHsib]; intros path; simpl;
    [reflexivity|].
  rewrite IHsib. destruct (j =? i)%Z; [reflexivity | now rewrite IHch].
Qed.

Lemma exact_fpg t items : forall suf T,
  Engine.fpg Engine.exact t suf T items = fpg t suf (as_ptree T) items.
Proof.
  induction items as [|i rest IH]; intros suf T; simpl; [reflexivity|].
  rewrite exact_cond_base, (IH suf T).
  rewrite (IH (i :: suf)), exact_build. reflexivity.
Qed.

Lemma exact_search S db t :
  Engine.search Engine.exact S db t = search S db t.
Proof.
  destruct S; simpl; [reflexivity | reflexivity |].
  unfold Engine.tree_projection, tree_projection. cbv zeta.
  now rewrite exact_fpg, exact_build.
Qed.

Lemma exact_mine S raw supp zmin :
  as_result (Engine.mine Engine.exact S raw supp zmin) = mine S raw supp zmin.
Proof.
  unfold Engine.mine, mine, Engine.mine_abs, mine_abs.
  destruct raw as [|tr raw]; [reflexivity|].
  rewrite exact_resolve_threshold, exact_search.
  change (Engine.total_weight Engine.exact (Engine.mk_db (tr :: raw)))
    with (total_weight (mk_db (tr :: raw))).
  change (Engine.mk_db (tr :: raw)) with (mk_db (tr :: raw)).
  destruct (search S _ _); reflexivity.
Qed.

(** The database of [fltsupp.py] as Python holds it: each weight the
    binary64 number nearest to its literal. *)
Example tracts64_value :
  tracts64
  = [ ([1; 2; 3]%Z,    0.5%float);
      ([1; 4; 5]%Z,    1.2%float);
      ([2; 3; 4]%Z,    0.8%float);
      ([1; 2; 3; 4]%Z, 1.0%float);
      ([2; 3]%Z,       1.5%float);
      ([1; 2; 4]%Z,    0.9%float);
      ([4; 5]%Z,       0.6%float);
      ([3; 4; 5]%Z,    0.7%float) ].
Proof. vm_compute. reflexivity. Qed.

(** The calls of the script with minimum size 1, in binary64.  The
    level-wise strategy sums the weights of the transactions of an itemset
    one by one; the tree strategy sums the counts of tree nodes, in which
    the weights of the transactions with a common prefix are added up
    already.  The supports of {1} and {2} come out different. *)
Example singletons_in_binary64 :
  Engine.apriori Engine.binary64 tracts64 (float_of_Q (-1.6)) 1
  = Engine.Patterns
      [ ([1]%Z, 3.5999999999999996%float); ([2]%Z, 4.7000000000000002%float);
        ([3]%Z, 4.5%float); ([4]%Z, 5.2000000000000002%float);
        ([5]%Z, 2.5%float);
        ([1; 2]%Z, 2.3999999999999999%float);
        ([1; 4]%Z, 3.0999999999999996%float);
        ([2; 3]%Z, 3.7999999999999998%float);
        ([2; 4]%Z, 2.7000000000000002%float);
        ([3; 4]%Z, 2.5%float); ([4; 5]%Z, 2.5%float);
        ([1; 2; 4]%Z, 1.8999999999999999%float);
        ([2; 3; 4]%Z, 1.8%float) ] /\
  Engine.fpgrowth Engine.binary64 tracts64 (float_of_Q (-1.6)) 1
  = Engine.Patterns
      [ ([5]%Z, 2.5%float); ([4; 5]%Z, 2.5%float);
        ([4]%Z, 5.2000000000000002%float); ([3; 4]%Z, 2.5%float);
        ([2; 3; 4]%Z, 1.8%float);
        ([2; 4]%Z, 2.7000000000000002%float);
        ([1; 2; 4]%Z, 1.8999999999999999%float);
        ([1; 4]%Z, 3.0999999999999996%float); ([3]%Z, 4.5%float);
        ([2; 3]%Z, 3.7999999999999998%float);
        ([2]%Z, 4.6999999999999993%float);
        ([1; 2]%Z, 2.3999999999999999%float);
        ([1]%Z, 3.6000000000000001%float) ].
Proof. split; vm_compute; reflexivity. Qed.

(** In binary64 the weights 0.1 and 0.7 add up to less than 0.8: an
    itemset found in just these two transactions is not reported at the
    absolute minimum support 0.8, by any strategy. *)
Example sum_below_its_decimal_value :
  support (mk_db [([1; 2]%Z, 0.1); ([1; 2; 3]%Z, 0.7)]) [1; 2]%Z == 0.8 /\
  forall S,
    Engine.mine Engine.binary64 S
      (binary64_db [([1; 2]%Z, 0.1); ([1; 2; 3]%Z, 0.7)])
      (float_of_Q (-0.8)) 2
    = Engine.Patterns [].
Proof. split; [reflexivity | intros []; vm_compute; reflexivity]. Qed.






(** At a minimum support of 0 percent the level-wise strategy keeps the
    candidate {1,2}, which no transaction contains, and the depth-first
    strategy, which descends only while the intersection is non-empty, does
    not reach it: the strategies are compared on the itemsets that occur in
    the database. *)
Example zero_percent_candidates :
  canon_result (apriori [([1]%Z, 1); ([2]%Z, 1)] 0 1)
  = canon_result (Patterns [([1]%Z, 1); ([2]%Z, 1); ([1; 2]%Z, 0)]) /\
  canon_result (eclat [([1]%Z, 1); ([2]%Z, 1)] 0 1)
  = canon_result (Patterns [([1]%Z, 1); ([2]%Z, 1)]).
Proof. split; vm_compute; reflexivity. Qed.




(** C5: in every mining call a negative support threshold is the absolute
    minimum weighted count with the sign dropped, and a non-negative one is
    a percentage of the total weight of the database; [supp=-1.6] is the
    absolute minimum support 1.6.  On positive weights, the output for a
    negative [supp] is the set of the itemsets of support at least [-supp],
    and for a positive [supp] the set of those of support at least [supp]
    percent of the total weight. *)
Theorem threshold_sign_convention S raw supp zmin :
  (supp < 0 -> resolve_threshold supp (total_weight (mk_db raw)) = - supp /\
               mine S raw supp zmin = mine_abs S raw (- supp) zmin) /\
  (0 <= supp ->
     resolve_threshold supp (total_weight (mk_db raw))
       = supp / 100 * total_weight (mk_db raw) /\
     mine S raw supp zmin
       = mine_abs S raw (supp / 100 * total_weight (mk_db raw)) zmin) /\
  mine S raw (-1.6) zmin = mine_abs S raw 1.6 zmin /\
  (forall out,
     positive_weights raw -> mine S raw supp zmin = Patterns out ->
     supp < 0 ->
     forall I s,
       has_pattern out I s <->
       ascending I /\ (zmin <= Z.of_nat (length I))%Z /\
       - supp <= support (mk_db raw) I /\ s == support (mk_db raw) I) /\
  (forall out,
     positive_weights raw -> mine S raw supp zmin = Patterns out ->
     0 < supp ->
     forall I s,
       has_pattern out I s <->
       ascending I /\ (zmin <= Z.of_nat (length I))%Z /\
       supp / 100 * total_weight (mk_db raw) <= support (mk_db raw) I /\
       s == support (mk_db raw) I).
Proof.
  assert (supp < 0 ->
          resolve_threshold supp (total_weight (mk_db raw)) = - supp) as Hneg.
  { intros H. unfold resolve_threshold.
    destruct (Qlt_le_dec supp 0); [reflexivity | lra]. }
  assert (0 <= supp ->
          resolve_threshold supp (total_weight (mk_db raw))
          = supp / 100 * total_weight (mk_db raw)) as Hpos.
  { intros H. unfold resolve_threshold.
    destruct (Qlt_le_dec supp 0); [lra | reflexivity]. }
  split; [intros H; split; [auto | unfold mine; now rewrite Hneg]|].
  split; [intros H; split; [auto | unfold mine; now rewrite Hpos]|].
  split; [reflexivity|].
  split.
  - intros out Hw Hm Hs. unfold mine in Hm. rewrite (Hneg Hs) in Hm.
    apply (mine_abs_spec S raw (- supp) zmin out Hw); [lra | exact Hm].
  - intros out Hw Hm Hs. unfold mine in Hm.
    rewrite Hpos in Hm by lra.
    apply (mine_abs_spec S raw _ zmin out Hw); [|exact Hm].
    destruct (mine_abs_Patterns _ _ _ _ _ Hm) as [Hraw _].
    pose proof (positive_total raw Hraw Hw) as Htot.
    rewrite total_weight_mk_db.
    apply Qmult_lt_0_compat; [|exact Htot].
    apply Qlt_shift_div_l; lra.
Qed.




(* ===================================================================== *)
(** * RuleGenerator                                                      *)
(* ===================================================================== *)

Lemma collect_In {A B : Type} (f : A -> fallible (list B)) l : forall out b,
  collect f l = inr out -> In b out ->
  exists a bs, In a l /\ f a = inr bs /\ In b bs.
Proof.
  induction l as [|a l IH]; simpl; intros out b H Hin.
  - inversion H; subst. destruct Hin.
  - destruct (f a) as [e|bs] eqn:Ea; simpl in H; [discriminate|].
    destruct (collect f l) as [e|rest] eqn:El; simpl in H; [discriminate|].
    inversion H; subst. apply in_app_or in Hin. destruct Hin as [Hin | Hin].
    + exists a, bs. auto.
    + destruct (IH rest b eq_refl Hin) as [a' [bs' [H1 [H2 H3]]]].
      exists a', bs'. auto.
Qed.

Lemma collect_ok {A B : Type} (f : A -> fallible (list B)) l :
  (forall a, In a l -> exists bs, f a = inr bs) ->
  exists out, collect f l = inr out.
Proof.
  induction l as [|a l IH]; simpl; intros H; eauto.
  destruct (H a) as [bs ->]; auto.
  destruct IH as [rest ->]; auto.
  simpl. eauto.
Qed.

Lemma dict_get_In (A : itemset) (freq : list pattern) s :
  dict_get tuple_eqb A freq = Some s -> In (A, s) freq.
Proof.
  induction freq as [|[B sB] freq IH]; simpl; [discriminate|].
  destruct (tuple_eqb A B) eqn:E.
  - apply tuple_eqb_spec in E. subst. intros H. inversion H. auto.
  - auto.
Qed.

Lemma dict_get_found (A : itemset) (freq : list pattern) s :
  In (A, s) freq -> exists s', dict_get tuple_eqb A freq = Some s'.
Proof.
  induction freq as [|[B sB] freq IH]; simpl; [tauto|].
  intros [H | H].
  - inversion H; subst.
    rewrite (proj2 (tuple_eqb_spec A A) eq_refl). eauto.
  - destruct (tuple_eqb A B); eauto.
Qed.

Lemma splits_spec I : forall k A C,
  In (A, C) (splits I k) ->
  subseq A I /\ length A = k /\ length C = (length I - k)%nat /\
  forall x, In x I <-> In x A \/ In x C.
Proof.
  induction I as [|x I IH]; intros k A C H.
  - destruct k; simpl in H; [|destruct H].
    destruct H as [H | []]. inversion H; subst.
    repeat split; auto using sub_nil; simpl; tauto.
  - destruct k as [|k]; simpl in H.
    + destruct H as [H | []]. inversion H; subst.
      split; [apply subseq_nil_l|]. repeat split; simpl; tauto.
    + apply in_app_or in H. destruct H as [H | H];
        apply in_map_iff in H; destruct H as [[A' C'] [E H]];
        inversion E; subst; simpl in *;
        destruct (IH _ _ _ H) as [Hsub [HlA [HlC Hel]]].
      * split; [now constructor|]. split; [lia|]. split; [lia|].
        intros y. rewrite Hel. tauto.
      * split; [now constructor|]. split; [lia|].
        pose proof (subseq_length _ _ Hsub).
        split; [lia|].
        intros y. rewrite Hel. tauto.
Qed.

Lemma candidates_spec I A C :
  In (A, C) (candidates I) ->
  subseq A I /\ A <> [] /\ C <> [] /\ forall x, In x I <-> In x A \/ In x C.
Proof.
  unfold candidates. intros H. apply in_flat_map in H.
  destruct H as [k [Hk H]]. apply in_seq in Hk.
  destruct (splits_spec I k A C H) as [Hsub [HlA [HlC Hel]]].
  repeat split; auto; try apply Hel.
  - intros ->. simpl in HlA. lia.
  - intros ->. simpl in HlC. lia.
Qed.

(** What [generate] retains for every rule it emits. *)
Lemma generate_sound freq db minConf minSupp rules r :
  generate freq db minConf minSupp = inr rules -> In r rules ->
  exists I sA,
    In (I, rule_support r) freq /\
    In (antecedent r, consequent r) (candidates I) /\
    In (antecedent r, sA) freq /\
    confidence r = rule_support r / sA /\
    minConf <= confidence r /\ minSupp <= rule_support r.
Proof.
  unfold generate. intros Hg Hin.
  destruct (collect_In _ _ _ _ Hg Hin) as [[I sI] [rs [Hp [Hrs Hr]]]].
  apply filter_In in Hp. destruct Hp as [Hp Hms]. simpl in Hms.
  apply Qle_bool_iff in Hms.
  unfold rules_of_itemset in Hrs. cbn [fst snd] in Hrs.
  destruct (2 <=? length I)%nat; [|inversion Hrs; subst; destruct Hr].
  destruct (collect_In _ _ _ _ Hrs Hr) as [[A C] [rs' [Hac [Hrule Hr']]]].
  unfold rule_of in Hrule. simpl in Hrule.
  destruct (dict_get tuple_eqb A freq) as [sA|] eqn:EA; [|discriminate].
  inversion Hrule; subst rs'.
  destruct (Qle_bool minConf (sI / sA)) eqn:Ec; [|destruct Hr'].
  destruct Hr' as [<- | []]. simpl.
  exists I, sA. apply Qle_bool_iff in Ec. apply dict_get_In in EA.
  repeat split; auto.
Qed.

(** On the output of a mining call that keeps the single items, rule
    generation does not fail: the support of every antecedent has been
    retained. *)
Lemma generate_total S raw supp zmin freq minConf minSupp :
  positive_weights raw ->
  0 < resolve_threshold supp (total_weight (mk_db raw)) ->
  (zmin <= 1)%Z ->
  mine S raw supp zmin = Patterns freq ->
  exists rules, generate freq (mk_db raw) minConf minSupp = inr rules.
Proof.
  intros Hw Ht Hz Hm. unfold generate.
  pose proof (mine_abs_spec S raw _ zmin freq Hw Ht Hm) as Hspec.
  apply collect_ok. intros [I sI] Hp. apply filter_In in Hp.
  destruct Hp as [Hp _]. unfold rules_of_itemset. cbn [fst snd].
  destruct (2 <=? length I)%nat; [|eauto].
  assert (has_pattern freq I sI) as HI by (exists sI; split; [auto|reflexivity]).
  apply Hspec in HI. destruct HI as [Hasc [_ [Hf _]]].
  apply collect_ok. intros [A C] Hac. unfold rule_of. cbn [fst snd].
  destruct (candidates_spec I A C Hac) as [Hsub [HA _]].
  destruct (proj2 (Hspec A (support (mk_db raw) A))) as [sA [HinA _]].
  - split; [eapply subseq_ascending; eauto|].
    split; [destruct A; [congruence | simpl length; lia]|].
    split; [|reflexivity].
    pose proof (support_antimono (mk_db raw) A I (positive_mk_db _ Hw)
                  (subseq_incl _ _ Hsub)). lra.
  - destruct (dict_get_found A freq sA HinA) as [s' ->]. eauto.
Qed.

(** C7: every rule generated from the output of a mining call has
    confidence support(itemset) / support(antecedent), the supports being
    the weighted supports in the database, and its confidence is at least
    the minimum confidence: a rule below it is never emitted. *)
Theorem rule_confidence S raw supp zmin freq minConf minSupp rules r :
  mine S raw supp zmin = Patterns freq ->
  generate freq (mk_db raw) minConf minSupp = inr rules ->
  In r rules ->
  exists I,
    In (antecedent r, consequent r) (candidates I) /\
    rule_support r == support (mk_db raw) I /\
    confidence r
      == support (mk_db raw) I / support (mk_db raw) (antecedent r) /\
    minConf <= confidence r /\ ~ confidence r < minConf.
Proof.
  intros Hm Hg Hin.
  destruct (generate_sound _ _ _ _ _ _ Hg Hin)
    as [I [sA [HI [Hac [HA [Hc [Hmin _]]]]]]].
  destruct (mine_sound _ _ _ _ _ _ _ Hm HI) as [HsI _].
  destruct (mine_sound _ _ _ _ _ _ _ Hm HA) as [HsA _].
  exists I. split; auto. split; auto.
  split; [rewrite Hc, HsI, HsA; reflexivity|].
  split; [auto | lra].
Qed.







Example rule_2_3_value :
  antecedent rule_2_3 = [2]%Z /\ consequent rule_2_3 = [3]%Z /\
  rule_support rule_2_3 == 3.8 /\ confidence rule_2_3 == 3.8 / 4.7.
Proof. repeat split; vm_compute; reflexivity. Qed.

Lemma rule_confidence_witness :
  exists I,
    In (antecedent rule_2_3, consequent rule_2_3) (candidates I) /\
    rule_support rule_2_3 == support (mk_db tracts) I /\
    confidence rule_2_3
      == support (mk_db tracts) I
         / support (mk_db tracts) (antecedent rule_2_3) /\
    0.7 <= confidence rule_2_3 /\ ~ confidence rule_2_3 < 0.7.
Proof.
  apply (rule_confidence BreadthFirst tracts (-1.6) 1 apriori_tracts_all
           0.7 0 tracts_rules rule_2_3).
  - vm_compute. reflexivity.
  - vm_compute. reflexivity.
  - right. left. reflexivity.
Defined.

(* ===================================================================== *)
(** * fltsupp.py: the script                                             *)
(* ===================================================================== *)

Section ScriptFacts.
Context {R : Type}.
Variable py_int : string -> option Z.
Variable fim_apriori fim_eclat fim_fpgrowth :
  dict (K := list Z) (V := Q) -> Q -> Z -> fallible (list R).
Variable fim_fim :
  dict (K := list Z) (V := Q) -> Q -> Z -> string -> fallible (list R).

(** The script and the whole program on the imported functions. *)
#[local] Abbreviation run_script :=
  (script fim_apriori fim_eclat fim_fpgrowth fim_fim).
#[local] Abbreviation run_main :=
  (main py_int fim_apriori fim_eclat fim_fpgrowth fim_fim).

Lemma executed_mining_branch before title f report
  (call : fallible (list R)) :
  flat_map branch_of before = [] ->
  executed (mining_branch before title f report call) = [Runs f report].
Proof.
  intros Hb. unfold executed, mining_branch.
  destruct call as [e|results]; cbn [trace];
    rewrite ?flat_map_app, Hb; simpl; auto.
  induction results as [|r results IH]; simpl; auto.
Qed.

Lemma calls_mining_branch before title f report (call : fallible (list R)) :
  calls (mk_run before None None) = [] ->
  calls (mining_branch before title f report call)
  = [Call f tracts (-1.6) 2 report].
Proof.
  unfold calls, mining_branch. cbn [trace]. intros Hb.
  destruct call as [e|results]; cbn [trace];
    rewrite ?filter_app, Hb; simpl; auto.
  induction results as [|r results IH]; simpl; auto.
Qed.

Lemma header_no_branch :
  flat_map (branch_of (R := R))
    (Print (PStr "transactions:")
     :: map (fun e => Print (PTract (fst e) (snd e))) tracts) = [].
Proof. reflexivity. Qed.

(** C8: the dispatch on [tid] is total and exclusive: for every integer
    exactly one branch runs, the one its range selects, and the mining
    branches pass [tracts], [supp=-1.6] and [zmin=2] ([fim] also
    [report='#']). *)
Theorem dispatch_total_exclusive (tid : Z) :
  ((tid < -2)%Z -> executed (run_script tid) = [PrintsDoc Fpgrowth]) /\
  (tid = (-2)%Z -> executed (run_script tid) = [PrintsDoc Eclat]) /\
  (tid = (-1)%Z -> executed (run_script tid) = [PrintsDoc Apriori]) /\
  (tid = 0%Z ->
     executed (run_script tid) = [Runs Apriori None] /\
     calls (run_script tid) = [Call Apriori tracts (-1.6) 2 None]) /\
  (tid = 1%Z ->
     executed (run_script tid) = [Runs Eclat None] /\
     calls (run_script tid) = [Call Eclat tracts (-1.6) 2 None]) /\
  (tid = 2%Z ->
     executed (run_script tid) = [Runs Fpgrowth None] /\
     calls (run_script tid) = [Call Fpgrowth tracts (-1.6) 2 None]) /\
  ((3 <= tid)%Z ->
     executed (run_script tid) = [Runs Fim (Some "#"%string)] /\
     calls (run_script tid)
     = [Call Fim tracts (-1.6) 2 (Some "#"%string)]) /\
  length (executed (run_script tid)) = 1%nat.
Proof.
  unfold script.
  destruct (tid <? -2)%Z eqn:E1; [apply Z.ltb_lt in E1 | apply Z.ltb_ge in E1].
  { repeat split; intros; try lia; reflexivity. }
  destruct (tid <? -1)%Z eqn:E2; [apply Z.ltb_lt in E2 | apply Z.ltb_ge in E2].
  { repeat split; intros; try lia; reflexivity. }
  destruct (tid <? 0)%Z eqn:E3; [apply Z.ltb_lt in E3 | apply Z.ltb_ge in E3].
  { repeat split; intros; try lia; reflexivity. }
  cbv zeta.
  destruct (tid <? 1)%Z eqn:E4; [apply Z.ltb_lt in E4 | apply Z.ltb_ge in E4];
    [|destruct (tid <? 2)%Z eqn:E5;
        [apply Z.ltb_lt in E5 | apply Z.ltb_ge in E5];
        [|destruct (tid <? 3)%Z eqn:E6;
            [apply Z.ltb_lt in E6 | apply Z.ltb_ge in E6]]];
    rewrite executed_mining_branch by apply header_no_branch;
    rewrite calls_mining_branch by reflexivity;
    repeat split; intros; try lia; reflexivity.
Qed.

(** C9: without [argv[1]] the script ends with [IndexError], with an
    [argv[1]] that [int] rejects it ends with [ValueError]; in both cases
    before [tracts] is built, before anything is printed and before any
    mining function is called. *)
Theorem bad_argv_raises_first (argv : list string) :
  (nth_error argv 1 = None ->
     run_main argv = mk_run [] None (Some IndexError)) /\
  (forall s, nth_error argv 1 = Some s -> py_int s = None ->
     run_main argv = mk_run [] None (Some ValueError)) /\
  (forall e, tid_of py_int argv = inl e ->
     (e = IndexError \/ e = ValueError) /\
     trace (run_main argv) = [] /\ calls (run_main argv) = [] /\
     tracts_var (run_main argv) = None /\ raised (run_main argv) = Some e).
Proof.
  unfold main, tid_of. repeat split.
  - intros ->. reflexivity.
  - intros s -> ->. reflexivity.
  - destruct (nth_error argv 1) as [s|]; [destruct (py_int s)|];
      inversion H; auto.
  - now rewrite H.
  - now rewrite H.
  - now rewrite H.
  - now rewrite H.
Qed.
(** The answers of the imported functions. *)
#[local] Abbreviation run_answer :=
  (answer fim_apriori fim_eclat fim_fpgrowth fim_fim).

(** The lines printed ahead of every mining call (lines 31-32). *)
#[local] Abbreviation header :=
  (Print (R := R) (PStr "transactions:")
   :: map (fun e => Print (PTract (fst e) (snd e))) tracts).

Lemma script_help tid :
  (tid < 0)%Z ->
  exists f, run_script tid = mk_run [Print (PDoc f)] None None.
Proof.
  intros H. unfold script.
  destruct (tid <? -2)%Z; [eauto|].
  destruct (tid <? -1)%Z; [eauto|].
  destruct (tid <? 0)%Z eqn:E; [eauto|].
  apply Z.ltb_ge in E. lia.
Qed.

Lemma script_mining tid :
  (0 <= tid)%Z ->
  exists f title report,
    run_script tid = mining_branch header title f report (run_answer f).
Proof.
  intros H. unfold script.
  destruct (tid <? -2)%Z eqn:E1; [apply Z.ltb_lt in E1; lia|].
  destruct (tid <? -1)%Z eqn:E2; [apply Z.ltb_lt in E2; lia|].
  destruct (tid <? 0)%Z eqn:E3; [apply Z.ltb_lt in E3; lia|].
  cbv zeta.
  destruct (tid <? 1)%Z; [exists Apriori; eauto|].
  destruct (tid <? 2)%Z; [exists Eclat; eauto|].
  destruct (tid <? 3)%Z; [exists Fpgrowth; eauto|].
  exists Fim. eauto.
Qed.

Lemma printed_results_mining_branch before title f report
  (call : fallible (list R)) :
  printed_results (mk_run before None None) = [] ->
  printed_results (mining_branch before title f report call)
  = match call with inr results => results | inl _ => [] end.
Proof.
  unfold printed_results, mining_branch. cbn [trace]. intros Hb.
  destruct call as [e|results]; cbn [trace];
    rewrite ?flat_map_app, Hb; simpl; auto.
  induction results as [|r results IH]; simpl; congruence.
Qed.

Lemma printed_tracts_mining_branch before title f report
  (call : fallible (list R)) :
  printed_tracts (mining_branch before title f report call)
  = printed_tracts (mk_run before None None).
Proof.
  unfold printed_tracts, mining_branch. cbn [trace].
  destruct call as [e|results]; cbn [trace];
    rewrite ?flat_map_app; simpl; rewrite ?app_nil_r; auto.
  induction results as [|r results IH]; simpl; auto using app_nil_r.
Qed.

(** X3: the dispatch only tells seven cases apart: every [tid] below -3
    runs as -3 does and every [tid] above 3 as 3 does. *)
Theorem dispatch_saturates (tid : Z) :
  script fim_apriori fim_eclat fim_fpgrowth fim_fim tid
  = script fim_apriori fim_eclat fim_fpgrowth fim_fim
      (Z.max (-3) (Z.min 3 tid)).
Proof.
  destruct (Z_lt_le_dec tid (-3)) as [Hlo | Hlo].
  - replace (Z.max (-3) (Z.min 3 tid)) with (-3)%Z by lia.
    unfold script. rewrite (proj2 (Z.ltb_lt tid (-2))) by lia. reflexivity.
  - destruct (Z_lt_le_dec 3 tid) as [Hhi | Hhi].
    + replace (Z.max (-3) (Z.min 3 tid)) with 3%Z by lia.
      unfold script.
      rewrite (proj2 (Z.ltb_ge tid (-2))), (proj2 (Z.ltb_ge tid (-1))),
        (proj2 (Z.ltb_ge tid 0)), (proj2 (Z.ltb_ge tid 1)),
        (proj2 (Z.ltb_ge tid 2)), (proj2 (Z.ltb_ge tid 3)) by lia.
      reflexivity.
    + replace (Z.max (-3) (Z.min 3 tid)) with tid by lia. reflexivity.
Qed.

(** X4: with a negative [tid] the script prints one documentation string
    and does nothing else: it prints no transaction and no result, builds
    no [tracts], calls no mining function and raises nothing, whatever the
    imported functions would do. *)
Theorem help_prints_one_line (tid : Z) :
  (tid < 0)%Z ->
  (exists f, trace (run_script tid) = [Print (PDoc f)]) /\
  calls (run_script tid) = [] /\
  printed_tracts (run_script tid) = [] /\
  printed_results (run_script tid) = [] /\
  tracts_var (run_script tid) = None /\
  raised (run_script tid) = None.
Proof.
  intros H. destruct (script_help tid H) as [f ->].
  split; [exists f; reflexivity|]. repeat split.
Qed.

(** X5: with a non-negative [tid] the script prints the transactions of
    [tracts], one line each in the order of the dict, then calls one mining
    function once; it prints the results the function returns, all of them
    in order; when the function raises, the transactions have been printed,
    no result is, and the run ends with that exception. *)
Theorem mining_prints_the_results (tid : Z) :
  (0 <= tid)%Z ->
  exists f report,
    calls (run_script tid) = [Call f tracts (-1.6) 2 report] /\
    tracts_var (run_script tid) = Some tracts /\
    printed_tracts (run_script tid) = tracts /\
    match run_answer f with
    | inr results =>
        printed_results (run_script tid) = results /\
        raised (run_script tid) = None
    | inl e =>
        printed_results (run_script tid) = [] /\
        raised (run_script tid) = Some (FimError e)
    end.
Proof.
  intros H. destruct (script_mining tid H) as [f [title [report ->]]].
  exists f, report.
  split; [apply calls_mining_branch; reflexivity|].
  split; [unfold mining_branch; destruct (run_answer f); reflexivity|].
  split; [rewrite printed_tracts_mining_branch; reflexivity|].
  rewrite printed_results_mining_branch by reflexivity.
  unfold mining_branch. destruct (run_answer f); split; reflexivity.
Qed.

(** X6: a run ends in one of four ways: without an exception, with the
    [IndexError] or the [ValueError] of line 14, or with the exception of
    the one mining function it called. *)
Theorem exceptions_of_a_run (argv : list string) :
  raised (run_main argv) = None \/
  (raised (run_main argv) = Some IndexError /\ nth_error argv 1 = None) \/
  (raised (run_main argv) = Some ValueError /\
   exists s, nth_error argv 1 = Some s /\ py_int s = None) \/
  (exists f report e,
     raised (run_main argv) = Some (FimError e) /\
     run_answer f = inl e /\
     calls (run_main argv) = [Call f tracts (-1.6) 2 report]).
Proof.
  unfold main, tid_of.
  destruct (nth_error argv 1) as [s|]; [|right; left; auto].
  destruct (py_int s) as [tid|] eqn:Es; [|right; right; left; eauto].
  destruct (Z_lt_le_dec tid 0) as [Hneg | Hpos].
  - left. destruct (script_help tid Hneg) as [f ->]. reflexivity.
  - destruct (script_mining tid Hpos) as [f [title [report ->]]].
    destruct (run_answer f) as [e|results] eqn:Ea.
    + right. right. right. exists f, report, e.
      split; [reflexivity|]. split; [exact Ea|].
      apply calls_mining_branch. reflexivity.
    + left. reflexivity.
Qed.
End ScriptFacts.

Lemma help_prints_one_line_witness :
  (exists f, trace (fltsupp_script (-1)) = [Print (PDoc f)]) /\
  calls (fltsupp_script (-1)) = [] /\
  printed_tracts (fltsupp_script (-1)) = [] /\
  printed_results (fltsupp_script (-1)) = [] /\
  tracts_var (fltsupp_script (-1)) = None /\
  raised (fltsupp_script (-1)) = None.
Proof.
  apply (help_prints_one_line (R := pattern)). reflexivity.
Defined.

Lemma mining_prints_the_results_witness :
  exists f report,
    calls (fltsupp_script 1) = [Call f tracts (-1.6) 2 report] /\
    tracts_var (fltsupp_script 1) = Some tracts /\
    printed_tracts (fltsupp_script 1) = tracts /\
    match fltsupp_answer f with
    | inr results =>
        printed_results (fltsupp_script 1) = results /\
        raised (fltsupp_script 1) = None
    | inl e =>
        printed_results (fltsupp_script 1) = [] /\
        raised (fltsupp_script 1) = Some (FimError e)
    end.
Proof.
  apply (mining_prints_the_results (R := pattern)). discriminate.
Defined.

Example fltsupp_no_argument fim_fim :
  fltsupp fim_fim ["fltsupp.py"%string] = mk_run [] None (Some IndexError).
Proof. reflexivity. Qed.

Example fltsupp_not_a_number fim_fim :
  fltsupp fim_fim ["fltsupp.py"; "two"]%string
  = mk_run [] None (Some ValueError).
Proof. reflexivity. Qed.

Example fltsupp_minus_five fim_fim :
  fltsupp fim_fim ["fltsupp.py"; "-5"]%string
  = mk_run [Print (PDoc Fpgrowth)] None None.
Proof. reflexivity. Qed.

Example fltsupp_one_calls_eclat fim_fim :
  calls (fltsupp fim_fim ["fltsupp.py"; "1"]%string)
  = [Call Eclat tracts (-1.6) 2 None] /\
  raised (fltsupp fim_fim ["fltsupp.py"; "1"]%string) = None /\
  length (trace (fltsupp fim_fim ["fltsupp.py"; "1"]%string))
  = (1 + 8 + 2 + 8)%nat.
Proof. vm_compute. auto. Qed.

(* ===================================================================== *)
(** * setup.py                                                           *)
(* ===================================================================== *)

Module SetupPyProofs.
Import stdpp.base stdpp.gmap stdpp.strings.
Import SetupPy.
#[local] Open Scope string_scope.
#[local] Close Scope Q_scope.

Section Setup.
Variable setup : setup_args -> files -> os_exn + files.

Lemma for_each_write {A : Type} (file : string) (g : A -> string) l :
  forall c (fs : files),
    for_each l (fun x => write file (g x)) (<[file := c]> fs)
    = inr (tt, <[file := fold_left (fun c x => c +:+ g x) l c]> fs).
Proof.
  induction l as [|x l IH]; intros c fs; simpl.
  - reflexivity.
  - unfold and_then, write at 1. rewrite alter_insert_eq. apply IH.
Qed.

Lemma write_manifest_spec (fs : files) :
  write_manifest fs = inr (tt, <["MANIFEST.in" := manifest_text]> fs).
Proof.
  unfold write_manifest, and_then, open_wt. apply for_each_write.
Qed.

Lemma write_readme_spec (fs : files) :
  write_readme fs = inr (tt, <["README" := readme_text]> fs).
Proof.
  unfold write_readme, and_then, open_wt.
  apply (for_each_write "README" (fun l => l +:+ nl)).
Qed.

Lemma cleanup_spec (fs : files) :
  match cleanup fs with
  | inr (_, fs') =>
      is_Some (fs !! "MANIFEST.in") /\ is_Some (fs !! "README") /\
      fs' = delete "README" (delete "MANIFEST.in" fs)
  | inl e =>
      (fs !! "MANIFEST.in" = None /\ e = FileNotFoundError "MANIFEST.in") \/
      (fs !! "README" = None /\ e = FileNotFoundError "README")
  end.
Proof.
  unfold cleanup, and_then, remove.
  destruct (fs !! "MANIFEST.in") as [m|] eqn:Em; [|auto].
  rewrite lookup_delete_ne by discriminate.
  destruct (fs !! "README") as [r|] eqn:Er; eauto.
Qed.

Lemma setup_py_unfold (fs0 : files) :
  setup_py setup fs0 = (call_setup setup fim_setup_args ;;; cleanup) (written fs0).
Proof.
  unfold setup_py, and_then at 1. rewrite write_manifest_spec.
  unfold and_then at 1. rewrite write_readme_spec. reflexivity.
Qed.

(** C10 (amended): [setup.py] writes [MANIFEST.in], one [include] line
    per header, and [README] before it calls [setup]; when [setup] returns
    and has left both files in the directory, both are removed; when it
    returns and one of them is missing, the run ends with
    [FileNotFoundError]; neither file is left after a run that ends without
    an exception. *)
Theorem generated_files_removed (fs0 : files) :
  (write_manifest ;;; write_readme) fs0 = inr (tt, written fs0) /\
  written fs0 !! "MANIFEST.in" = Some manifest_text /\
  written fs0 !! "README" = Some readme_text /\
  manifest_text
    = String.concat "" (map (fun h => "include " +:+ h +:+ nl) headers) /\
  setup_py setup fs0 = (call_setup setup fim_setup_args ;;; cleanup) (written fs0) /\
  (forall e, setup fim_setup_args (written fs0) = inl e ->
             setup_py setup fs0 = inl e) /\
  (forall fs2, setup fim_setup_args (written fs0) = inr fs2 ->
               is_Some (fs2 !! "MANIFEST.in") -> is_Some (fs2 !! "README") ->
               setup_py setup fs0
               = inr (tt, delete "README" (delete "MANIFEST.in" fs2))) /\
  (forall fs', setup_py setup fs0 = inr (tt, fs') ->
               fs' !! "MANIFEST.in" = None /\ fs' !! "README" = None) /\
  (forall fs2, setup fim_setup_args (written fs0) = inr fs2 ->
               fs2 !! "MANIFEST.in" = None \/ fs2 !! "README" = None ->
               exists file,
                 setup_py setup fs0 = inl (FileNotFoundError file)).
Proof.
  split.
  { unfold and_then. rewrite write_manifest_spec. apply write_readme_spec. }
  split.
  { unfold written. rewrite lookup_insert_ne by discriminate.
    apply lookup_insert_eq. }
  split; [apply lookup_insert_eq|].
  split; [vm_compute; reflexivity|].
  split; [apply setup_py_unfold|].
  rewrite setup_py_unfold. unfold and_then, call_setup.
  split; [|split; [|split]].
  - intros e ->. reflexivity.
  - intros fs2 -> [m Hm] [r Hr]. unfold cleanup, and_then, remove.
    rewrite Hm, lookup_delete_ne, Hr by discriminate. reflexivity.
  - intros fs' H.
    destruct (setup fim_setup_args (written fs0)) as [e|fs2]; [discriminate|].
    pose proof (cleanup_spec fs2) as Hc.
    destruct (cleanup fs2) as [e|[[] fs3]]; [discriminate|].
    inversion H; subst fs3. destruct Hc as [_ [_ ->]].
    split.
    + rewrite lookup_delete_ne by discriminate. apply lookup_delete_eq.
    + apply lookup_delete_eq.
  - intros fs2 -> Hmiss. pose proof (cleanup_spec fs2) as Hc.
    destruct (cleanup fs2) as [e|[[] fs3]].
    + destruct Hc as [[_ ->] | [_ ->]]; eauto.
    + destruct Hc as [[m Hm] [[r Hr] _]]. destruct Hmiss; congruence.
Qed.
End Setup.

(** A [setup] that leaves the working directory alone: the run ends
    without an exception and the directory is as it was. *)
Lemma generated_files_removed_witness :
  setup_py (fun _ fs => inr fs) ∅ = inr (tt, ∅).
Proof.
  destruct (generated_files_removed (fun _ fs => inr fs) ∅)
    as [_ [Hm [Hr [_ [_ [_ [H _]]]]]]].
  rewrite (H (written ∅) eq_refl); [|eauto..].
  assert (delete "README" (delete "MANIFEST.in" (written ∅)) = (∅ : files))
    as ->; [|reflexivity].
  apply map_eq. intros k. unfold written.
  destruct (decide (k = "README")) as [->|Hk]; [now rewrite lookup_delete_eq|].
  rewrite lookup_delete_ne by congruence.
  destruct (decide (k = "MANIFEST.in")) as [->|Hk'];
    [now rewrite lookup_delete_eq|].
  rewrite lookup_delete_ne, !lookup_insert_ne by congruence. reflexivity.
Defined.

(** ** The directory a run leaves behind *)

Section SetupTrackedFacts.
Variable setup_tracked : setup_args -> Tracked unit.

Lemma setup_py_tracked_unfold (fs0 : files) :
  setup_py_tracked setup_tracked fs0
  = (setup_tracked fim_setup_args >>>
     atomic (remove "MANIFEST.in") >>> atomic (remove "README"))
      (written fs0).
Proof.
  unfold setup_py_tracked, tracked_then at 1, atomic at 1.
  rewrite write_manifest_spec.
  unfold tracked_then at 1, atomic at 1.
  rewrite write_readme_spec. reflexivity.
Qed.

Lemma tracked_cleanup (fs : files) :
  (atomic (remove "MANIFEST.in") >>> atomic (remove "README")) fs
  = match fs !! "MANIFEST.in", fs !! "README" with
    | None, _ => (inl (FileNotFoundError "MANIFEST.in"), fs)
    | Some _, None =>
        (inl (FileNotFoundError "README"), delete "MANIFEST.in" fs)
    | Some _, Some _ =>
        (inr tt, delete "README" (delete "MANIFEST.in" fs))
    end.
Proof.
  unfold tracked_then, atomic, remove.
  destruct (fs !! "MANIFEST.in") as [m|]; [|reflexivity].
  rewrite lookup_delete_ne by discriminate.
  destruct (fs !! "README") as [r|]; reflexivity.
Qed.

(** The tracked run and the run of Part I's [setup_py] end the same way. *)
Lemma tracked_agrees (fs0 : files) :
  forget (setup_py_tracked setup_tracked) fs0
  = setup_py (setup_of_tracked setup_tracked) fs0.
Proof.
  rewrite setup_py_unfold. unfold forget.
  rewrite setup_py_tracked_unfold.
  unfold tracked_then at 1, and_then at 1, call_setup, setup_of_tracked.
  destruct (setup_tracked fim_setup_args (written fs0)) as [[e|[]] fs2];
    [reflexivity|].
  rewrite tracked_cleanup. unfold cleanup, and_then, remove.
  destruct (fs2 !! "MANIFEST.in") as [m|]; [|reflexivity].
  rewrite lookup_delete_ne by discriminate.
  destruct (fs2 !! "README") as [r|]; reflexivity.
Qed.

(** X8: the statements of [setup.py] touch no file but [MANIFEST.in] and
    [README]: any other file is, when [setup] is called, as it was at the
    start, and at the end of the run, successful or not, as [setup] left
    it. *)
Theorem other_files_untouched (fs0 : files) (file : string) :
  file <> "MANIFEST.in" -> file <> "README" ->
  written fs0 !! file = fs0 !! file /\
  snd (setup_py_tracked setup_tracked fs0) !! file
  = snd (setup_tracked fim_setup_args (written fs0)) !! file.
Proof.
  intros Hm Hr. split.
  - unfold written. now rewrite !lookup_insert_ne by congruence.
  - rewrite setup_py_tracked_unfold. unfold tracked_then at 1.
    destruct (setup_tracked fim_setup_args (written fs0)) as [[e|[]] fs2];
      [reflexivity|].
    rewrite tracked_cleanup. cbn [snd].
    destruct (fs2 !! "MANIFEST.in"), (fs2 !! "README"); cbn [snd];
      now rewrite ?lookup_delete_ne by congruence.
Qed.

(** X9: when [setup] raises, the run ends with that exception and with
    the directory as [setup] left it: the two [remove]s are not reached,
    so [MANIFEST.in] and [README] are not cleaned up. *)
Theorem setup_failure_skips_cleanup (fs0 fs2 : files) (e : os_exn) :
  setup_tracked fim_setup_args (written fs0) = (inl e, fs2) ->
  setup_py_tracked setup_tracked fs0 = (inl e, fs2) /\
  (fs2 = written fs0 ->
   snd (setup_py_tracked setup_tracked fs0) !! "MANIFEST.in"
     = Some manifest_text /\
   snd (setup_py_tracked setup_tracked fs0) !! "README" = Some readme_text).
Proof.
  intros H.
  assert (setup_py_tracked setup_tracked fs0 = (inl e, fs2)) as Hrun.
  { rewrite setup_py_tracked_unfold. unfold tracked_then at 1.
    now rewrite H. }
  split; [exact Hrun|].
  intros ->. rewrite Hrun. cbn [snd]. unfold written. split.
  - rewrite lookup_insert_ne by discriminate. apply lookup_insert_eq.
  - apply lookup_insert_eq.
Qed.

(** X10: when [setup] returns, the two [remove]s run in order and the
    first that finds its file missing ends the run: without [MANIFEST.in]
    the run raises [FileNotFoundError] and leaves [README] where it is;
    with [MANIFEST.in] but without [README] it removes [MANIFEST.in] and
    then raises; with both it removes both and ends normally. *)
Theorem cleanup_outcomes (fs0 fs2 : files) :
  setup_tracked fim_setup_args (written fs0) = (inr tt, fs2) ->
  (fs2 !! "MANIFEST.in" = None ->
     setup_py_tracked setup_tracked fs0
     = (inl (FileNotFoundError "MANIFEST.in"), fs2)) /\
  (is_Some (fs2 !! "MANIFEST.in") -> fs2 !! "README" = None ->
     setup_py_tracked setup_tracked fs0
     = (inl (FileNotFoundError "README"), delete "MANIFEST.in" fs2)) /\
  (is_Some (fs2 !! "MANIFEST.in") -> is_Some (fs2 !! "README") ->
     setup_py_tracked setup_tracked fs0
     = (inr tt, delete "README" (delete "MANIFEST.in" fs2))).
Proof.
  intros H.
  assert (setup_py_tracked setup_tracked fs0
          = (atomic (remove "MANIFEST.in") >>> atomic (remove "README")) fs2)
    as ->.
  { rewrite setup_py_tracked_unfold. unfold tracked_then at 1.
    now rewrite H. }
  rewrite tracked_cleanup.
  split; [|split].
  - intros ->. reflexivity.
  - intros [m ->] ->. reflexivity.
  - intros [m ->] [r ->]. reflexivity.
Qed.

(** X11: when [setup] leaves the directory alone, a run of [setup.py]
    ends normally with the directory it started from less [MANIFEST.in]
    and [README]: files of these names that were there before the run are
    lost. *)
Theorem files_of_these_names_are_lost (fs0 : files) :
  (forall args fs, setup_tracked args fs = (inr tt, fs)) ->
  setup_py_tracked setup_tracked fs0
  = (inr tt, delete "README" (delete "MANIFEST.in" fs0)).
Proof.
  intros Hidle. rewrite setup_py_tracked_unfold. unfold tracked_then at 1.
  rewrite Hidle, tracked_cleanup. unfold written.
  rewrite lookup_insert_ne, !lookup_insert_eq by discriminate.
  f_equal. apply map_eq. intros k.
  destruct (decide (k = "README")) as [->|Hr];
    [now rewrite !lookup_delete_eq|].
  rewrite !(lookup_delete_ne _ "README") by congruence.
  destruct (decide (k = "MANIFEST.in")) as [->|Hm];
    [now rewrite !lookup_delete_eq|].
  now rewrite !lookup_delete_ne, !lookup_insert_ne by congruence.
Qed.
End SetupTrackedFacts.

(** C10 (as stated, refuted): the removal is not unconditional.  When
    [setup] returns after deleting [MANIFEST.in], the first [remove] raises
    [FileNotFoundError], the second is not reached and [README] is left in
    the directory. *)
Lemma removal_is_not_unconditional :
  setup_deleting "MANIFEST.in" fim_setup_args (written some_files)
  = (inr tt, delete "MANIFEST.in" (written some_files)) /\
  setup_py (setup_of_tracked (setup_deleting "MANIFEST.in")) some_files
  = inl (FileNotFoundError "MANIFEST.in") /\
  setup_py_tracked (setup_deleting "MANIFEST.in") some_files
  = (inl (FileNotFoundError "MANIFEST.in"),
     delete "MANIFEST.in" (written some_files)) /\
  snd (setup_py_tracked (setup_deleting "MANIFEST.in") some_files) !! "README"
  = Some readme_text.
Proof.
  assert (setup_py_tracked (setup_deleting "MANIFEST.in") some_files
          = (inl (FileNotFoundError "MANIFEST.in"),
             delete "MANIFEST.in" (written some_files))) as Hrun.
  { rewrite setup_py_tracked_unfold. unfold tracked_then at 1.
    unfold setup_deleting at 1. rewrite tracked_cleanup.
    now rewrite lookup_delete_eq. }
  split; [reflexivity|].
  split.
  { rewrite <- tracked_agrees. unfold forget. now rewrite Hrun. }
  split; [exact Hrun|].
  rewrite Hrun. cbn [snd]. rewrite lookup_delete_ne by discriminate.
  apply lookup_insert_eq.
Qed.

(** X7: the two files are opened for writing afresh: what [MANIFEST.in]
    and [README] held before the run, if they existed, has no part in what
    they hold when [setup] is called. *)
Theorem generated_files_overwritten (fs0 : files)
  (old_manifest old_readme : string) :
  (write_manifest ;;; write_readme)
    (<["MANIFEST.in" := old_manifest]> (<["README" := old_readme]> fs0))
  = (write_manifest ;;; write_readme) fs0.
Proof.
  unfold and_then. rewrite !write_manifest_spec, !write_readme_spec.
  f_equal. f_equal. apply map_eq. intros k.
  destruct (decide (k = "README")) as [->|Hr];
    [now rewrite !lookup_insert_eq|].
  rewrite !(lookup_insert_ne _ "README") by congruence.
  destruct (decide (k = "MANIFEST.in")) as [->|Hm];
    [now rewrite !lookup_insert_eq|].
  now rewrite !lookup_insert_ne by congruence.
Qed.

Lemma other_files_untouched_witness :
  written some_files !! "setup.py" = some_files !! "setup.py" /\
  snd (setup_py_tracked setup_idle some_files) !! "setup.py"
  = snd (setup_idle fim_setup_args (written some_files)) !! "setup.py".
Proof.
  apply (other_files_untouched setup_idle some_files "setup.py");
    discriminate.
Defined.

Lemma setup_failure_skips_cleanup_witness :
  setup_py_tracked setup_raising some_files
  = (inl SetupFailed, written some_files) /\
  (written some_files = written some_files ->
   snd (setup_py_tracked setup_raising some_files) !! "MANIFEST.in"
     = Some manifest_text /\
   snd (setup_py_tracked setup_raising some_files) !! "README"
     = Some readme_text).
Proof.
  apply (setup_failure_skips_cleanup setup_raising some_files
           (written some_files) SetupFailed).
  reflexivity.
Defined.

Lemma cleanup_outcomes_witness :
  (delete "MANIFEST.in" (written some_files) !! "MANIFEST.in" = None ->
     setup_py_tracked (setup_deleting "MANIFEST.in") some_files
     = (inl (FileNotFoundError "MANIFEST.in"),
        delete "MANIFEST.in" (written some_files))) /\
  (is_Some (delete "MANIFEST.in" (written some_files) !! "MANIFEST.in") ->
   delete "MANIFEST.in" (written some_files) !! "README" = None ->
     setup_py_tracked (setup_deleting "MANIFEST.in") some_files
     = (inl (FileNotFoundError "README"),
        delete "MANIFEST.in" (delete "MANIFEST.in" (written some_files)))) /\
  (is_Some (delete "MANIFEST.in" (written some_files) !! "MANIFEST.in") ->
   is_Some (delete "MANIFEST.in" (written some_files) !! "README") ->
     setup_py_tracked (setup_deleting "MANIFEST.in") some_files
     = (inr tt,
        delete "README"
          (delete "MANIFEST.in"
             (delete "MANIFEST.in" (written some_files))))).
Proof.
  apply (cleanup_outcomes (setup_deleting "MANIFEST.in") some_files
           (delete "MANIFEST.in" (written some_files))).
  reflexivity.
Defined.

Lemma files_of_these_names_are_lost_witness :
  setup_py_tracked setup_idle some_files
  = (inr tt, delete "README" (delete "MANIFEST.in" some_files)).
Proof.
  apply (files_of_these_names_are_lost setup_idle some_files).
  reflexivity.
Defined.

(** The README the user had is gone after the run, the script is still
    there. *)
Example user_readme_is_gone :
  some_files !! "README" = Some "mine" /\
  snd (setup_py_tracked setup_idle some_files) !! "README" = None /\
  snd (setup_py_tracked setup_idle some_files) !! "setup.py" = Some "...".
Proof. repeat split; vm_compute; reflexivity. Qed.
End SetupPyProofs.

